(** * Multiplexer: admission semaphore, acceptor, fetch dispatcher, closer

    A shallow embedding of the four concurrency-bearing packages of
    [alexeykhan/multiplexer]:

    - [pkg/ratelimiter]: the admission semaphore ([RateLimiter]);
    - [pkg/listener]:    the admission-controlled acceptor ([Listener]);
    - [pkg/crawler]:     the bounded worker-pool dispatcher ([Crawler]);
    - [pkg/closer]:      the shutdown coordinator ([Closer]).

    Goroutines are modelled by interleaving: every package gets a state
    record, an executable step function indexed by the event that fires,
    and runs are lists of events.  Channel operations follow the Go memory
    model: a [select] may take any ready case, a receive on an empty
    channel parks the receiver, a closed channel is always ready. *)

From stdpp Require Import base option list strings pretty.
From Stdlib Require Import ZArith Lia.

(** Go's [error] values: a leaf message, or [fmt.Errorf("...: %w", e)]. *)
Inductive error : Type :=
| Err (msg : string)
| Wrap (prefix : string) (inner : error).

#[global] Instance error_eq_dec : EqDecision error.
Proof. solve_decision. Defined.

(** [context.Canceled]. *)
Definition Canceled : error := Err "context canceled".

(** The [Error()] method. *)
Fixpoint Error (e : error) : string :=
  match e with
  | Err msg => msg
  | Wrap prefix inner => prefix +:+ ": " +:+ Error inner
  end.

(* ===================================================================== *)
(** * pkg/ratelimiter *)
(* ===================================================================== *)

Module RateLimiter.

(** [rateLimiter]: [window] is a [chan struct{}] of capacity [limit],
    modelled by the number of buffered tokens together with the number of
    receivers parked on it; [done] is a [chan struct{}] that is only ever
    closed, modelled by a flag; [once] is the [sync.Once] guarding the
    close. *)
Record rateLimiter : Type := mkRateLimiter {
  window : nat;
  limit : nat;
  receivers : nat;
  done : bool;
  once : bool
}.

Definition New (lim : nat) : rateLimiter :=
  {| window := 0; limit := lim; receivers := 0; done := false; once := false |}.

(** [Done]: [rl.once.Do(func() { close(rl.done) })]. *)
Definition Done (rl : rateLimiter) : rateLimiter :=
  if once rl then rl
  else {| window := window rl; limit := limit rl; receivers := receivers rl;
          done := true; once := true |}.

(** The two communications of the [select] in [Acquire]. *)
Inductive select_case : Type := CaseDone | CaseWindow.

(** [<-rl.done] can proceed once the channel is closed. *)
Definition done_ready (rl : rateLimiter) : bool := done rl.

(** [rl.window <- struct{}{}] can proceed when a receiver is parked or the
    buffer has room. *)
Definition window_ready (rl : rateLimiter) : bool :=
  bool_decide (0 < receivers rl) || bool_decide (window rl < limit rl).

(** The send on [window]: hand the token to a parked receiver, or buffer it. *)
Definition send_window (rl : rateLimiter) : rateLimiter :=
  match receivers rl with
  | S k => {| window := window rl; limit := limit rl; receivers := k;
              done := done rl; once := once rl |}
  | O => {| window := S (window rl); limit := limit rl; receivers := 0;
            done := done rl; once := once rl |}
  end.

(** [Acquire], with the case the [select] takes made explicit.  [None]
    says that the chosen case cannot proceed; the call blocks when no case
    can ([Acquire_blocks]). *)
Definition Acquire (pick : select_case) (rl : rateLimiter)
  : option (bool * rateLimiter) :=
  match pick with
  | CaseDone => if done_ready rl then Some (false, rl) else None
  | CaseWindow => if window_ready rl then Some (true, send_window rl) else None
  end.

Definition Acquire_blocks (rl : rateLimiter) : Prop :=
  ∀ pick, Acquire pick rl = None.

(** [Release]: [<-rl.window].  With an empty buffer the caller parks until
    a later send hands it a token. *)
Definition Release (rl : rateLimiter) : rateLimiter :=
  match window rl with
  | S k => {| window := k; limit := limit rl; receivers := receivers rl;
              done := done rl; once := once rl |}
  | O => {| window := 0; limit := limit rl; receivers := S (receivers rl);
            done := done rl; once := once rl |}
  end.

(** Slots taken minus slots given back. *)
Definition held (rl : rateLimiter) : Z :=
  Z.of_nat (window rl) - Z.of_nat (receivers rl).

(** Calls on the shared limiter, as the goroutines issue them. *)
Inductive call : Type :=
| CallDone
| CallAcquire (pick : select_case)
| CallRelease.

(** One call; a call that blocks leaves the state as it is. *)
Definition exec (c : call) (rl : rateLimiter) : rateLimiter :=
  match c with
  | CallDone => Done rl
  | CallAcquire pick =>
      match Acquire pick rl with Some (_, rl') => rl' | None => rl end
  | CallRelease => Release rl
  end.

Definition execs (cs : list call) (rl : rateLimiter) : rateLimiter :=
  foldl (λ s c, exec c s) rl cs.

End RateLimiter.

(* ===================================================================== *)
(** * pkg/listener *)
(* ===================================================================== *)

Module Listener.
Import RateLimiter.

(** The wrapped [net.Conn] is identified by a number. *)
Definition netConn : Type := nat.

(** [connection]: the wrapped [net.Conn] and the [sync.Once] guarding
    [release]; [release] is always the [Release] method of the listener's
    limiter, which the operations below receive as the shared state. *)
Record connection : Type := mkConnection {
  Conn : netConn;
  cn_once : bool
}.

(** [listener.Accept].  [pick] is the case taken inside [Acquire];
    [under] is what the embedded [net.Listener.Accept] returns.  [None]:
    the call is blocked in [Acquire]. *)
Definition Accept (pick : select_case) (under : netConn + error)
  (rl : rateLimiter) : option ((option connection * option error) * rateLimiter) :=
  match Acquire pick rl with
  | None => None
  | Some (acquiredLock, rl1) =>
      match under with
      | inr err =>
          Some ((None, Some err), if acquiredLock then Release rl1 else rl1)
      | inl c =>
          Some ((Some {| Conn := c; cn_once := false |}, None), rl1)
      end
  end.

(** [listener.Close]: close the embedded listener, then [Done]. *)
Definition Close (under : option error) (rl : rateLimiter)
  : option error * rateLimiter :=
  (under, Done rl).

(** [connection.Close]: [err = cn.Conn.Close(); cn.once.Do(cn.release)].
    [under] is the error of the wrapped [Close]. *)
Definition conn_Close (under : option error) (cn : connection)
  (rl : rateLimiter) : option error * connection * rateLimiter :=
  if cn_once cn then (under, cn, rl)
  else (under, {| Conn := Conn cn; cn_once := true |}, Release rl).

(** Repeated [Close] calls on one connection, one per entry of [unders]. *)
Fixpoint conn_Closes (unders : list (option error)) (cn : connection)
  (rl : rateLimiter) : connection * rateLimiter :=
  match unders with
  | [] => (cn, rl)
  | u :: us =>
      let '(_, cn', rl') := conn_Close u cn rl in conn_Closes us cn' rl'
  end.

End Listener.

(* ===================================================================== *)
(** * pkg/crawler *)
(* ===================================================================== *)

Module Crawler.

Record Result : Type := mkResult {
  SourceURL : string;
  StatusCode : Z;
  ResponseBody : string;
  err : option error
}.

#[global] Instance Result_eq_dec : EqDecision Result.
Proof. solve_decision. Defined.

(** [MaxConnections] is a [uint16]; it is only ever converted to [int] and
    compared, so a natural number carries it. *)
Record Config : Type := mkConfig {
  MaxConnections : nat;
  RequestTimeout : Z
}.

Definition defaultConfig : Config :=
  {| MaxConnections := 4; RequestTimeout := 1000000000 |}.

(** What the standard library returns to the crawler. *)
Record URL : Type := mkURL { Scheme : string; Host : string }.

(** An [*http.Response]: the status code, and what [ioutil.ReadAll] makes
    of its body. *)
Record Response : Type := mkResponse {
  RespStatusCode : Z;
  Body : string + error
}.

(** The pure standard-library functions the package calls:
    [url.ParseRequestURI], [http.NewRequest(http.MethodGet, url, nil)]
    (its error), [json.Unmarshal] (its error), [json.Compact], and the
    [%q] verb of [fmt]. *)
Record Lib : Type := mkLib {
  ParseRequestURI : string → URL + error;
  NewRequest : string → option error;
  Unmarshal : string → option error;
  Compact : string → string + error;
  Quote : string → string
}.

Definition StatusOK : Z := 200.

(** The job a worker goroutine is doing. *)
Inductive worker : Type :=
| AtSelect                  (* at the [select] of the [for] loop *)
| InCrawl (url : string)    (* took a task, entering [crawl] *)
| InFlight (url : string)   (* inside [cr.client.Do] *)
| Sending (r : Result)      (* at [results <- r] *)
| Exited.                   (* returned; [wg.Done] ran *)

#[global] Instance worker_eq_dec : EqDecision worker.
Proof. solve_decision. Defined.

(** One [Crawl] call.  [parent] and [ctx] hold [Err()] of the caller's
    context and of the context derived from it; [tasks] is the pre-loaded,
    closed channel; [returned] is what the call gave back, once it has.
    [fetched] and [seen] are history: the results [crawl] produced, and
    the results the collecting loop received, oldest first. *)
Record state : Type := mkState {
  parent : option error;
  ctx : option error;
  tasks : list string;
  workers : list worker;
  exitErr : option error;
  out : list Result;
  returned : option (option (list Result) * option error);
  fetched : list Result;
  seen : list Result
}.

(** What the scheduler and the network can make happen. *)
Inductive event : Type :=
| CallerCancel (reason : error)          (* the caller's context ends *)
| Stop (i : nat)                         (* worker [i]: [<-ctx.Done()] *)
| Pull (i : nat)                         (* worker [i]: [<-tasks] *)
| Enter (i : nat)                        (* worker [i]: [crawl] up to [Do] *)
| Respond (i : nat) (resp : Response + error) (* [Do] returns *)
| Recv (i : nat)                         (* the loop receives from [i] *)
| Finish.                                (* [results] closed; return *)

Definition failed (r : Result) : bool := bool_decide (is_Some (err r)).

(** The first failed result of a list. *)
Fixpoint first_failed (rs : list Result) : option Result :=
  match rs with
  | [] => None
  | r :: rest => if failed r then Some r else first_failed rest
  end.

Definition fail (url : string) (e : error) : Result :=
  {| SourceURL := url; StatusCode := 0; ResponseBody := EmptyString;
     err := Some e |}.

(** [cancel()] and the propagation of the parent's end: the first reason
    sticks. *)
Definition cancel_with (reason : error) (c : option error) : option error :=
  match c with Some e => Some e | None => Some reason end.

Section WithLib.
Context (L : Lib).

(** The check in the validation loop of [Crawl]. *)
Definition url_ok (checkURL : string) : bool :=
  match ParseRequestURI L checkURL with
  | inr _ => false
  | inl uri =>
      negb (bool_decide (Host uri = EmptyString))
      && negb (bool_decide (Scheme uri = EmptyString))
  end.

Definition invalidURL (checkURL : string) : error :=
  Err ("invalid url: " +:+ Quote L checkURL).

(** The validation loop: the URLs sent to [tasks] before the loop ends,
    and [invalidURLErr]. *)
Fixpoint enqueue (urls : list string) : list string * option error :=
  match urls with
  | [] => ([], None)
  | checkURL :: rest =>
      if url_ok checkURL
      then let '(q, e) := enqueue rest in (checkURL :: q, e)
      else ([], Some (invalidURL checkURL))
  end.

(** [numWorkers]. *)
Definition numWorkers (cfg : Config) (urls : list string) : nat :=
  if bool_decide (length urls < MaxConnections cfg)
  then length urls else MaxConnections cfg.

(** [crawl] up to the call of [cr.client.Do]: the result it returns
    early, or [inr tt] when the request goes out. *)
Definition crawl_enter (c : option error) (url : string) : Result + unit :=
  match c with
  | Some e => inl (fail url (Wrap "exit on context done" e))
  | None =>
      match NewRequest L url with
      | Some e => inl (fail url (Wrap "create a request" e))
      | None => inr ()
      end
  end.

(** [crawl] from the return of [cr.client.Do]. *)
Definition crawl_finish (url : string) (resp : Response + error) : Result :=
  match resp with
  | inr e => fail url (Wrap "failed to send a request" e)
  | inl resp =>
      if bool_decide (RespStatusCode resp ≠ StatusOK)
      then fail url (Err ("unexpected response status code: "
                          +:+ pretty (RespStatusCode resp)))
      else
        match Body resp with
        | inr e => fail url (Wrap "read a response body" e)
        | inl body =>
            match Unmarshal L body with
            | Some e => fail url (Wrap "unmarshal response body to JSON" e)
            | None =>
                match Compact L body with
                | inr e => fail url (Wrap "compact JSON to buffer" e)
                | inl compacted =>
                    {| SourceURL := url;
                       StatusCode := RespStatusCode resp;
                       ResponseBody := compacted;
                       err := None |}
                end
            end
        end
  end.

(** [crawl] as a whole, [resp] being what [cr.client.Do] returns if the
    request goes out. *)
Definition crawl (c : option error) (url : string) (resp : Response + error)
  : Result :=
  match crawl_enter c url with
  | inl r => r
  | inr _ => crawl_finish url resp
  end.

(** The wrapping of the first error by the collecting loop. *)
Definition failedToCrawl (r : Result) (e : error) : error :=
  Wrap ("failed to crawl " +:+ Quote L (SourceURL r)) e.

Definition giveBack (res : option (list Result)) (e : option error)
  (c : option error) : state :=
  {| parent := c; ctx := c; tasks := []; workers := []; exitErr := None;
     out := []; returned := Some (res, e); fetched := []; seen := [] |}.

(** [Crawl] up to the start of the collecting loop: either the call has
    already returned, or the workers are launched. *)
Definition Crawl (cfg : Config) (c : option error) (urls : list string)
  : state :=
  match c with
  | Some e => giveBack None (Some e) c
  | None =>
      match urls with
      | [] => giveBack None None c
      | _ =>
          match enqueue urls with
          | (_, Some invalidURLErr) => giveBack None (Some invalidURLErr) c
          | (queued, None) =>
              {| parent := None; ctx := None; tasks := queued;
                 workers := replicate (numWorkers cfg urls) AtSelect;
                 exitErr := None; out := []; returned := None;
                 fetched := []; seen := [] |}
          end
      end
  end.

Definition set_worker (i : nat) (w : worker) (s : state) : state :=
  {| parent := parent s; ctx := ctx s; tasks := tasks s;
     workers := <[i:=w]> (workers s); exitErr := exitErr s; out := out s;
     returned := returned s; fetched := fetched s; seen := seen s |}.

Definition produce (i : nat) (r : Result) (s : state) : state :=
  {| parent := parent s; ctx := ctx s; tasks := tasks s;
     workers := <[i:=Sending r]> (workers s); exitErr := exitErr s;
     out := out s; returned := returned s;
     fetched := fetched s ++ [r]; seen := seen s |}.

(** The body of [for res := range results], on receiving [res] from
    worker [i].  The receive and the body are one step, [cancel()]
    included: [exitErr] and [out] are local to the loop, so that only the
    moment of [cancel()] is fixed by this; what a worker does between the
    receive and [cancel()] is not a run of this model. *)
Definition collect (i : nat) (res : Result) (s : state) : state :=
  let ws := <[i:=AtSelect]> (workers s) in
  match exitErr s with
  | Some _ =>
      {| parent := parent s; ctx := ctx s; tasks := tasks s; workers := ws;
         exitErr := exitErr s; out := out s; returned := returned s;
         fetched := fetched s; seen := seen s ++ [res] |}
  | None =>
      match err res with
      | Some e =>
          {| parent := parent s; ctx := cancel_with Canceled (ctx s);
             tasks := tasks s; workers := ws;
             exitErr := Some (failedToCrawl res e); out := out s;
             returned := returned s; fetched := fetched s;
             seen := seen s ++ [res] |}
      | None =>
          {| parent := parent s; ctx := ctx s; tasks := tasks s;
             workers := ws; exitErr := None; out := out s ++ [res];
             returned := returned s; fetched := fetched s;
             seen := seen s ++ [res] |}
      end
  end.

Definition all_exited (ws : list worker) : bool :=
  forallb (λ w, bool_decide (w = Exited)) ws.

(** One event; [None] when it cannot fire in [s]. *)
Definition step (ev : event) (s : state) : option state :=
  match returned s with
  | Some _ => None
  | None =>
      match ev with
      | CallerCancel reason =>
          match parent s with
          | Some _ => None
          | None =>
              Some {| parent := Some reason;
                      ctx := cancel_with reason (ctx s);
                      tasks := tasks s; workers := workers s;
                      exitErr := exitErr s; out := out s;
                      returned := None; fetched := fetched s;
                      seen := seen s |}
          end
      | Stop i =>
          match workers s !! i, ctx s with
          | Some AtSelect, Some _ => Some (set_worker i Exited s)
          | _, _ => None
          end
      | Pull i =>
          match workers s !! i with
          | Some AtSelect =>
              match tasks s with
              | url :: rest =>
                  Some {| parent := parent s; ctx := ctx s; tasks := rest;
                          workers := <[i:=InCrawl url]> (workers s);
                          exitErr := exitErr s; out := out s;
                          returned := None; fetched := fetched s;
                          seen := seen s |}
              | [] => Some (set_worker i Exited s)
              end
          | _ => None
          end
      | Enter i =>
          match workers s !! i with
          | Some (InCrawl url) =>
              match crawl_enter (ctx s) url with
              | inl r => Some (produce i r s)
              | inr _ => Some (set_worker i (InFlight url) s)
              end
          | _ => None
          end
      | Respond i resp =>
          match workers s !! i with
          | Some (InFlight url) => Some (produce i (crawl_finish url resp) s)
          | _ => None
          end
      | Recv i =>
          match workers s !! i with
          | Some (Sending r) => Some (collect i r s)
          | _ => None
          end
      | Finish =>
          if all_exited (workers s)
          then Some {| parent := parent s;
                       ctx := cancel_with Canceled (ctx s);
                       tasks := tasks s; workers := workers s;
                       exitErr := exitErr s; out := out s;
                       returned :=
                         Some match exitErr s with
                              | Some e => (None, Some e)
                              | None => (Some (out s), None)
                              end;
                       fetched := fetched s; seen := seen s |}
          else None
      end
  end.

(** A run: the events of a schedule, one after the other. *)
Fixpoint run (sched : list event) (s : state) : option state :=
  match sched with
  | [] => Some s
  | ev :: rest =>
      match step ev s with
      | Some s' => run rest s'
      | None => None
      end
  end.

End WithLib.

(** [len] of a possibly-nil slice. *)
Definition len (res : option (list Result)) : nat :=
  match res with Some rs => length rs | None => 0 end.

(** The result a worker holds at [results <- r]. *)
Definition holds (w : worker) : list Result :=
  match w with Sending r => [r] | _ => [] end.

(** The results produced and not yet received. *)
Definition sending (ws : list worker) : list Result := ws ≫= holds.

(** What [Crawl] returns once [results] is closed. *)
Definition verdict (s : state) : option (list Result) * option error :=
  match exitErr s with
  | Some e => (None, Some e)
  | None => (Some (out s), None)
  end.

(** Work left to a worker, for the bound on the length of runs. *)
Definition weight (w : worker) : nat :=
  match w with
  | Exited => 0
  | AtSelect => 1
  | Sending _ => 2
  | InFlight _ => 3
  | InCrawl _ => 4
  end.

Definition fuel (s : state) : nat :=
  4 * length (tasks s) + sum_list (weight <$> workers s)
  + match parent s with Some _ => 0 | None => 1 end
  + match returned s with Some _ => 0 | None => 1 end.

(** The error the collecting loop makes of a failed result. *)
Definition wrapped (L : Lib) (r : Result) : option error :=
  failedToCrawl L r <$> err r.

(** What holds of every state of a call that launched its workers:
    [exitErr] is the wrapped first failure received; until a failure is
    received [out] is what was received; every result produced has been
    received or is still held by its worker; the call returns only with
    every worker gone, and returns the verdict of the loop. *)
Record Inv (L : Lib) (s : state) : Prop := mkInv {
  inv_exitErr : exitErr s = first_failed (seen s) ≫= wrapped L;
  inv_out : exitErr s = None → out s = seen s;
  inv_fetched : fetched s ≡ₚ seen s ++ sending (workers s);
  inv_returned : ∀ p, returned s = Some p →
                   all_exited (workers s) = true ∧ p = verdict s
}.

(** Where results come from: every URL in the queue or with a worker is a
    URL of the list; so is the URL of every result produced, and a result
    that carries a request-construction error is of a URL of which
    [http.NewRequest] makes that error. *)
Record Origin (L : Lib) (urls : list string) (s : state) : Prop := mkOrigin {
  origin_tasks : ∀ u, u ∈ tasks s → u ∈ urls;
  origin_workers : ∀ w u, w ∈ workers s → w = InCrawl u ∨ w = InFlight u →
                     u ∈ urls;
  origin_fetched : ∀ r, r ∈ fetched s →
                     SourceURL r ∈ urls
                     ∧ ∀ e, err r = Some (Wrap "create a request" e) →
                         NewRequest L (SourceURL r) = Some e
}.

(** ** Concrete runs

    A stand-in for the standard library: a request URI is accepted when
    it starts with [http://], requests can always be built, a body is
    JSON when it starts with a brace, and compacting changes nothing. *)
Definition lib0 : Lib :=
  {| ParseRequestURI u :=
       if String.prefix "http://" u
       then inl {| Scheme := "http"; Host := "host" |}
       else inr (Err "invalid URI for request");
     NewRequest _ := None;
     Unmarshal b :=
       if String.prefix "{" b then None
       else Some (Err "invalid character looking for beginning of value");
     Compact b := inl b;
     Quote u :=
       String (Ascii.ascii_of_nat 34)
         (u +:+ String (Ascii.ascii_of_nat 34) EmptyString) |}.

Definition ok_body : Response :=
  {| RespStatusCode := 200; Body := inl "{}" |}.

Definition status500 : Response :=
  {| RespStatusCode := 500; Body := inl "{}" |}.

Definition two_urls : list string := ["http://a"; "http://b"].

(** Both workers fetch; [http://b] answers 500 and its result is received
    first; the other result is skipped; the workers leave. *)
Definition sched_one_fails : list event :=
  [Pull 0; Pull 1; Enter 0; Enter 1; Respond 0 (inl ok_body);
   Respond 1 (inl status500); Recv 1; Recv 0; Pull 0; Stop 1; Finish].

(** Both workers fetch with success. *)
Definition sched_all_succeed : list event :=
  [Pull 0; Pull 1; Enter 0; Enter 1; Respond 1 (inl ok_body);
   Respond 0 (inl ok_body); Recv 1; Recv 0; Pull 0; Pull 1; Finish].

(** The caller gives up after the first result: both workers take the
    [ctx.Done()] case and [http://b] is never fetched. *)
Definition sched_caller_cancel : list event :=
  [Pull 0; Enter 0; Respond 0 (inl ok_body); Recv 0;
   CallerCancel Canceled; Stop 0; Stop 1; Finish].

(** The state a schedule ends in (the start state if it cannot run). *)
Definition end_of (L : Lib) (sched : list event) (s : state) : state :=
  default s (run L sched s).

Definition start_two : state := Crawl lib0 defaultConfig None two_urls.

Definition end_one_fails : state :=
  Eval vm_compute in end_of lib0 sched_one_fails start_two.

Definition end_all_succeed : state :=
  Eval vm_compute in end_of lib0 sched_all_succeed start_two.

Definition end_caller_cancel : state :=
  Eval vm_compute in end_of lib0 sched_caller_cancel start_two.

Definition bad_url : string := "some random text".

End Crawler.

(* ===================================================================== *)
(** * pkg/closer *)
(* ===================================================================== *)

Module Closer.

(** A registered [func() error], by what it returns when it is run;
    [hook_id] tells hooks with the same outcome apart. *)
Record hook : Type := mkHook {
  hook_id : nat;
  returns : option error
}.

(** [sync.Once]: not yet entered, running its function, done. *)
Inductive once_state : Type := Fresh | Running | Fired.

#[global] Instance once_state_eq_dec : EqDecision once_state.
Proof. solve_decision. Defined.

(** [closer], with the frame of the function handed to [once.Do]:
    [goroutines] are the launched hooks that have not run yet, [errs] is
    the buffered channel (capacity [cap_errs]), [i] the counter of the
    receiving loop, [log] the lines written with [log.Printf].  [ran] is
    history: the hooks in the order they ran. *)
Record closer : Type := mkCloser {
  once : once_state;
  done : bool;
  funcs : list hook;
  goroutines : list hook;
  errs : list (option error);
  cap_errs : nat;
  i : nat;
  log : list string;
  ran : list hook
}.

Definition New : closer :=
  {| once := Fresh; done := false; funcs := []; goroutines := [];
     errs := []; cap_errs := 0; i := 0; log := []; ran := [] |}.

Inductive event : Type :=
| Add (f : list hook)   (* a call of [Add] *)
| Close                 (* a call of [Close] *)
| RunHook (k : nat)     (* the [k]-th pending goroutine runs: [errs <- f()] *)
| Drain                 (* one turn of the receiving loop *)
| Complete.             (* the loop is over: deferred [close(c.done)] *)

Definition log_line (e : error) : string := "closer: " +:+ Error e.

(** One event; [None] when it cannot fire.  A [Close] call that finds the
    [sync.Once] entered runs nothing and changes nothing. *)
Definition step (ev : event) (c : closer) : option closer :=
  match ev with
  | Add f =>
      Some {| once := once c; done := done c; funcs := funcs c ++ f;
              goroutines := goroutines c; errs := errs c;
              cap_errs := cap_errs c; i := i c; log := log c; ran := ran c |}
  | Close =>
      match once c with
      | Fresh =>
          Some {| once := Running; done := done c; funcs := [];
                  goroutines := funcs c; errs := [];
                  cap_errs := length (funcs c); i := 0; log := log c;
                  ran := ran c |}
      | _ => Some c
      end
  | RunHook k =>
      match goroutines c !! k with
      | Some f =>
          if bool_decide (length (errs c) < cap_errs c)
          then Some {| once := once c; done := done c; funcs := funcs c;
                       goroutines := delete k (goroutines c);
                       errs := errs c ++ [returns f];
                       cap_errs := cap_errs c; i := i c; log := log c;
                       ran := ran c ++ [f] |}
          else None
      | None => None
      end
  | Drain =>
      match once c, errs c with
      | Running, e :: rest =>
          if bool_decide (i c < cap_errs c)
          then Some {| once := Running; done := done c; funcs := funcs c;
                       goroutines := goroutines c; errs := rest;
                       cap_errs := cap_errs c; i := S (i c);
                       log := match e with
                              | Some e => log c ++ [log_line e]
                              | None => log c
                              end;
                       ran := ran c |}
          else None
      | _, _ => None
      end
  | Complete =>
      match once c with
      | Running =>
          if bool_decide (i c < cap_errs c) then None
          else Some {| once := Fired; done := true; funcs := funcs c;
                       goroutines := goroutines c; errs := errs c;
                       cap_errs := cap_errs c; i := i c; log := log c;
                       ran := ran c |}
      | _ => None
      end
  end.

Fixpoint run (tr : list event) (c : closer) : option closer :=
  match tr with
  | [] => Some c
  | ev :: rest =>
      match step ev c with
      | Some c' => run rest c'
      | None => None
      end
  end.

(** [Wait]: [<-c.done].  [None]: the caller is blocked. *)
Definition Wait (c : closer) : option unit :=
  if done c then Some () else None.

(** The hooks registered before the first [Close] of a trace. *)
Fixpoint registered (tr : list event) : list hook :=
  match tr with
  | [] => []
  | Add f :: rest => f ++ registered rest
  | Close :: _ => []
  | _ :: rest => registered rest
  end.

(** The events of the shutdown itself, as opposed to calls from outside. *)
Definition internal (ev : event) : bool :=
  match ev with
  | RunHook _ | Drain | Complete => true
  | Add _ | Close => false
  end.

(** Work left to the shutdown. *)
Definition pending (c : closer) : nat :=
  2 * length (goroutines c) + length (errs c)
  + match once c with Running => 1 | _ => 0 end.

(** What holds before the first [Close]: nothing has been launched. *)
Record FreshInv (c : closer) : Prop := mkFreshInv {
  fresh_once : once c = Fresh;
  fresh_done : done c = false;
  fresh_goroutines : goroutines c = [];
  fresh_errs : errs c = [];
  fresh_ran : ran c = [];
  fresh_log : log c = []
}.

(** What holds from the first [Close] on, [regs] being the hooks it took:
    the hooks that ran and those still to run make up [regs]; [errs] has
    room for all of them and holds, in order, what the hooks that ran
    returned and the loop has not received; [log] has a line for every
    error received; [done] is closed exactly when the [sync.Once] is
    over, and then the loop has received everything. *)
Record RunInv (regs : list hook) (c : closer) : Prop := mkRunInv {
  run_once : once c ≠ Fresh;
  run_ran : ran c ++ goroutines c ≡ₚ regs;
  run_cap : cap_errs c = length regs;
  run_i : i c + length (errs c) = length (ran c);
  run_i_cap : i c ≤ cap_errs c;
  run_errs : errs c = returns <$> drop (i c) (ran c);
  run_log : log c = log_line <$> omap returns (take (i c) (ran c));
  run_done : done c = bool_decide (once c = Fired);
  run_fired : once c = Fired → i c = cap_errs c
}.

(** ** A concrete shutdown

    Two hooks are registered, the second of which fails; [Close] is
    called four times in all, and a third hook arrives after the first
    [Close]. *)
Definition hook1 : hook := {| hook_id := 1; returns := None |}.

Definition hook2 : hook :=
  {| hook_id := 2;
     returns := Some (Err "http: shutting down: context deadline exceeded") |}.

Definition hook3 : hook := {| hook_id := 3; returns := None |}.

Definition shutdown : list event :=
  [Add [hook1]; Add [hook2]; Close; Add [hook3]; Close; RunHook 1;
   RunHook 0; Drain; Close; Drain; Complete; Close].

Definition end_of (tr : list event) (c : closer) : closer :=
  default c (run tr c).

Definition end_shutdown : closer := Eval vm_compute in end_of shutdown New.

(** The shutdown stopped after the failing hook has run. *)
Definition half_shutdown : list event :=
  [Add [hook1; hook2]; Close; RunHook 1].

Definition end_half_shutdown : closer :=
  Eval vm_compute in end_of half_shutdown New.

End Closer.

(* ===================================================================== *)
(** * The acceptor in use *)
(* ===================================================================== *)

Module Admission.
Import RateLimiter Listener.

(** What [listener.New] returns on success: the plain [net.Listener], or
    the wrapper with its limiter. *)
Inductive lstnr : Type :=
| Plain
| Limited (rl : rateLimiter).

(** [listener.New]; [listen] is the error of [net.Listen], if any. *)
Definition New (listen : option error) (lim : nat) : lstnr + error :=
  match listen with
  | Some err => inr err
  | None => if bool_decide (lim = 0) then inl Plain
            else inl (Limited (RateLimiter.New lim))
  end.

(** [listener.Accept] from the return of the embedded [Accept] on:
    [acquiredLock] is what [Acquire] returned to this call, [under] what
    the embedded [Accept] returns. *)
Definition Accept_return (acquiredLock : bool) (under : netConn + error)
  (rl : rateLimiter) : (option connection * option error) * rateLimiter :=
  match under with
  | inr err => ((None, Some err), if acquiredLock then Release rl else rl)
  | inl c => ((Some {| Conn := c; cn_once := false |}, None), rl)
  end.

(** A limited listener as the server drives it: the shared limiter, the
    [acquiredLock] of every [Accept] call that is past [Acquire] and
    waits in the embedded [Accept], and the connections handed out so
    far, oldest first. *)
Record system : Type := mkSystem {
  limiter : rateLimiter;
  accepting : list bool;
  conns : list connection
}.

Definition start (lim : nat) : system :=
  {| limiter := RateLimiter.New lim; accepting := []; conns := [] |}.

(** The calls of the server and of the handlers.  An [Accept] call takes
    two steps: its [Acquire], and the return of the embedded [Accept]. *)
Inductive op : Type :=
| DoAccept (pick : select_case)              (* [Accept]: its [Acquire] *)
| DoAccepted (k : nat) (under : netConn + error)
                        (* waiting call [k]: the embedded [Accept] returns *)
| DoClose (k : nat) (under : option error)   (* [Close] on connection [k] *)
| DoShutdown (under : option error).         (* [listener.Close] *)

(** One step; [None] when it blocks (or names no call, no connection). *)
Definition sys_step (o : op) (s : system) : option system :=
  match o with
  | DoAccept pick =>
      match Acquire pick (limiter s) with
      | None => None
      | Some (acquiredLock, rl) =>
          Some {| limiter := rl; accepting := accepting s ++ [acquiredLock];
                  conns := conns s |}
      end
  | DoAccepted k under =>
      match accepting s !! k with
      | None => None
      | Some acquiredLock =>
          let '((cn, _), rl) := Accept_return acquiredLock under (limiter s) in
          Some {| limiter := rl; accepting := delete k (accepting s);
                  conns := conns s ++ option_list cn |}
      end
  | DoClose k under =>
      match conns s !! k with
      | None => None
      | Some cn =>
          let '(_, cn', rl) := conn_Close under cn (limiter s) in
          Some {| limiter := rl; accepting := accepting s;
                  conns := <[k:=cn']> (conns s) |}
      end
  | DoShutdown under =>
      Some {| limiter := (Close under (limiter s)).2;
              accepting := accepting s; conns := conns s |}
  end.

Fixpoint sys_run (os : list op) (s : system) : option system :=
  match os with
  | [] => Some s
  | o :: rest =>
      match sys_step o s with
      | Some s' => sys_run rest s'
      | None => None
      end
  end.

Definition is_open (cn : connection) : bool := negb (cn_once cn).

(** The connections handed out and not yet closed. *)
Definition open (s : system) : nat :=
  length (filter (λ cn, is_open cn = true) (conns s)).

Definition is_shutdown (o : op) : bool :=
  match o with DoShutdown _ => true | _ => false end.

Definition is_Done (c : call) : bool :=
  match c with CallDone => true | _ => false end.

(** What every limiter reached from [New] satisfies: the buffer is within
    its capacity, receivers park only on an empty buffer, and the
    [sync.Once] has fired exactly when [done] is closed. *)
Record WF (rl : rateLimiter) : Prop := mkWF {
  wf_window : window rl ≤ limit rl;
  wf_receivers : 0 < receivers rl → window rl = 0;
  wf_once : once rl = done rl
}.

(** One for an open connection. *)
Definition weigh (cn : connection) : nat := if is_open cn then 1 else 0.

(** The slots taken by [Accept] calls that wait in the embedded
    [Accept]. *)
Definition waiting (s : system) : nat :=
  length (filter (λ b : bool, b = true) (accepting s)).

(** What a limited listener keeps until it is closed: the limiter is well
    formed with the capacity it was made with, its gate is open, nobody
    is parked on it, every [Accept] past [Acquire] has taken a slot, and
    the buffer holds one token per open connection and one per [Accept]
    call that waits in the embedded [Accept]. *)
Record SysInv (lim : nat) (s : system) : Prop := mkSysInv {
  sys_wf : WF (limiter s);
  sys_limit : limit (limiter s) = lim;
  sys_gate : done (limiter s) = false;
  sys_receivers : receivers (limiter s) = 0;
  sys_accepting : Forall (λ b, b = true) (accepting s);
  sys_open : open s + waiting s = window (limiter s)
}.

(** A server at work on a limit of two: an accept, a failed accept, a
    second accept, a double close of the first connection, and one more
    [Accept] call that has taken a slot and waits for a peer. *)
Definition busy : list op :=
  [DoAccept CaseWindow; DoAccepted 0 (inl 1);
   DoAccept CaseWindow; DoAccepted 0 (inr (Err "too many open files"));
   DoAccept CaseWindow; DoAccepted 0 (inl 2);
   DoClose 0 None; DoClose 0 (Some (Err "use of closed network connection"));
   DoAccept CaseWindow].

Definition end_busy : system :=
  Eval vm_compute in default (start 2) (sys_run busy (start 2)).

(** Calls that fill a limiter of capacity two. *)
Definition full : list call :=
  [CallAcquire CaseWindow; CallAcquire CaseWindow; CallRelease;
   CallAcquire CaseWindow].

End Admission.

(* ===================================================================== *)
(** * The dispatcher: bookkeeping of a call *)
(* ===================================================================== *)

Module Dispatch.
Import Crawler.

(** The URL a worker has taken and not yet produced a result for. *)
Definition holds_url (w : worker) : list string :=
  match w with
  | InCrawl u | InFlight u => [u]
  | _ => []
  end.

Definition in_progress (ws : list worker) : list string := ws ≫= holds_url.

Definition is_in_flight (w : worker) : bool :=
  match w with InFlight _ => true | _ => false end.

(** The requests that are inside [cr.client.Do]. *)
Definition in_flight (s : state) : nat :=
  length (filter (λ w, is_in_flight w = true) (workers s)).

(** A possibly-nil slice as a list. *)
Definition slice (res : option (list Result)) : list Result := default [] res.

Section WithLib.
Context (L : Lib).

(** The answers of [cr.client.Do] that [crawl] turns into a result without
    an error: status 200, a body that can be read, parses as JSON and can
    be compacted. *)
Definition answers_well (resp : Response + error) : bool :=
  match resp with
  | inr _ => false
  | inl resp =>
      bool_decide (RespStatusCode resp = StatusOK)
      && match Body resp with
         | inr _ => false
         | inl body =>
             match Unmarshal L body, Compact L body with
             | None, inl _ => true
             | _, _ => false
             end
         end
  end.

(** The events of a call that nobody cancels and whose requests are all
    answered well. *)
Definition benign (ev : event) : bool :=
  match ev with
  | CallerCancel _ => false
  | Respond _ resp => answers_well resp
  | _ => true
  end.

(** What a call that launched its workers keeps: every URL of the list is
    a result already, or with a worker, or still queued; a result without
    an error carries status 200. *)
Record Books (urls : list string) (s : state) : Prop := mkBooks {
  books_urls :
    (SourceURL <$> fetched s) ++ in_progress (workers s) ++ tasks s ≡ₚ urls;
  books_status :
    Forall (λ r, failed r = false → StatusCode r = StatusOK) (fetched s)
}.

(** What a call keeps as long as every event is [benign]: no context is
    done before the return, no error is latched, no result has failed, and
    a worker has left only when the queue was empty. *)
Record Calm (s : state) : Prop := mkCalm {
  calm_parent : parent s = None;
  calm_ctx : returned s = None → ctx s = None;
  calm_exitErr : exitErr s = None;
  calm_fetched : Forall (λ r, failed r = false) (fetched s);
  calm_exited : Exited ∈ workers s → tasks s = []
}.

End WithLib.

(** Five URLs for two workers; every request is answered well, the
    results come back out of order. *)
Definition five_urls : list string :=
  ["http://a"; "http://b"; "http://c"; "http://d"; "http://e"].

Definition two_workers : Config :=
  {| MaxConnections := 2; RequestTimeout := 1000000000 |}.

Definition sched_five : list event :=
  [Pull 0; Pull 1; Enter 1; Enter 0; Respond 1 (inl ok_body); Recv 1;
   Pull 1; Respond 0 (inl ok_body); Enter 1; Recv 0; Pull 0;
   Respond 1 (inl ok_body); Enter 0; Recv 1; Pull 1; Enter 1;
   Respond 0 (inl ok_body); Respond 1 (inl ok_body); Recv 0; Recv 1;
   Pull 0; Pull 1; Finish].

Definition end_five : state :=
  Eval vm_compute in
    end_of lib0 sched_five (Crawl lib0 two_workers None five_urls).

(** The run [sched_one_fails] up to the receipt of the failed result and
    the [cancel()] that follows it, and a task taken after that. *)
Definition start_three : state :=
  Crawl lib0 two_workers None ["http://a"; "http://b"; "http://c"].

Definition sched_latched : list event :=
  [Pull 0; Pull 1; Enter 0; Enter 1; Respond 0 (inl ok_body);
   Respond 1 (inl status500); Recv 1; Recv 0; Pull 0].

Definition end_latched : state :=
  Eval vm_compute in end_of lib0 sched_latched start_three.

End Dispatch.

(* ===================================================================== *)
(** * internal/app: the life of the process *)
(* ===================================================================== *)

Module Lifecycle.
Import Closer.

Definition is_Close (ev : event) : bool :=
  match ev with Close => true | _ => false end.

(** Two closers that differ at most in the hooks waiting in [funcs]. *)
Definition same_shutdown (c1 c2 : closer) : Prop :=
  once c1 = once c2 ∧ done c1 = done c2 ∧ goroutines c1 = goroutines c2
  ∧ errs c1 = errs c2 ∧ cap_errs c1 = cap_errs c2 ∧ i c1 = i c2
  ∧ log c1 = log c2 ∧ ran c1 = ran c2.

(** The hook [Run] registers: it returns the error of [srv.Shutdown],
    wrapped, or nil. *)
Definition graceful (shutdown : option error) : hook :=
  {| hook_id := 0; returns := Wrap "http: shutting down" <$> shutdown |}.

(** A shutdown of [Run] on a signal, with [srv.Shutdown] timing out. *)
Definition deadline : error := Err "context deadline exceeded".

Definition signalled : list event :=
  [Add [graceful (Some deadline)]; Close; RunHook 0; Drain; Complete].

Definition end_signalled : closer :=
  Eval vm_compute in Closer.end_of signalled New.

(** What is left of [half_shutdown]: the other hook, the two receives,
    the end. *)
Definition rest_of_shutdown : list event := [RunHook 0; Drain; Drain; Complete].

Definition end_rest_of_shutdown : closer :=
  Eval vm_compute in Closer.end_of rest_of_shutdown end_half_shutdown.

End Lifecycle.

(* ===================================================================== *)
(** * internal/app: the handler of [/crawler] *)
(* ===================================================================== *)

Module Handler.
Import Crawler.

Definition maxURLsNumber : nat := 20.
Definition contentTypeJSON : string := "application/json".
Definition MethodPost : string := "POST".

Definition StatusOK : Z := 200.
Definition StatusBadRequest : Z := 400.
Definition StatusMethodNotAllowed : Z := 405.
Definition StatusUnsupportedMediaType : Z := 415.
Definition StatusInternalServerError : Z := 500.

(** What the handler reads of an [*http.Request]. *)
Record Request : Type := mkRequest {
  Method : string;
  ContentType : string;   (* [r.Header.Get(contentTypeHeader)] *)
  ContentLength : Z;
  Body : string
}.

(** The errors of [json.NewDecoder(r.Body).Decode(&jsonReq)]: a
    [*json.UnmarshalTypeError] with its [Value] and [Type], or any other
    error. *)
Inductive decodeError : Type :=
| UnmarshalTypeError (value type : string)
| OtherError (e : error).

Record urlsResult : Type := mkUrlsResult {
  url : string;
  code : Z;
  body : string
}.

(** What [writeResponse] writes after the header: the text of an error,
    or the JSON object with the one key [results]. *)
Inductive payload : Type :=
| Text (msg : string)
| JSON (results : list urlsResult).

Record reply : Type := mkReply {
  status : Z;
  header : string;        (* the [Content-Type] header *)
  written : payload
}.

(** The argument [data] of [writeResponse]: an [error], or the response
    slice. *)
Definition writeResponse (data : error + list urlsResult)
  (httpStatusCode : Z) : reply :=
  {| status := httpStatusCode; header := contentTypeJSON;
     written := match data with
                | inl err => Text (Error err)
                | inr resp => JSON resp
                end |}.

Definition zero : urlsResult :=
  {| url := EmptyString; code := 0; body := EmptyString |}.

Definition convert (res : Result) : urlsResult :=
  {| url := SourceURL res; code := StatusCode res; body := ResponseBody res |}.

(** [response := make([]urlsResult, len(results))], then the loop that
    fills [response[i]] from [results[i]]. *)
Definition fill (results : list Result) : list urlsResult :=
  foldl (λ response ir, <[ir.1 := convert ir.2]> response)
        (replicate (length results) zero)
        (imap (λ i res, (i, res)) results).

Section WithDeps.
(** The [%q] verb, the decoding of the body into [urlsRequest.URLs], and
    the call [a.crawler.Crawl(r.Context(), urls)]. *)
Context (quote : string → string).
Context (decode : string → list string + decodeError).
Context (crawl : list string → option (list Result) * option error).

Definition handler (r : Request) : reply :=
  if bool_decide (Method r ≠ MethodPost) then
    writeResponse
      (inl (Err ("method not allowed: expected " +:+ quote MethodPost
                 +:+ ": got " +:+ quote (Method r))))
      StatusMethodNotAllowed
  else if bool_decide (ContentType r ≠ contentTypeJSON) then
    writeResponse
      (inl (Err ("unsupported " +:+ quote "Content-Type"
                 +:+ " header: expected " +:+ quote contentTypeJSON
                 +:+ ": got " +:+ quote (ContentType r))))
      StatusUnsupportedMediaType
  else if bool_decide (ContentLength r = 0%Z) then
    writeResponse (inl (Err "bad request: empty request body"))
      StatusBadRequest
  else
    match decode (Body r) with
    | inr (UnmarshalTypeError value type) =>
        writeResponse
          (inl (Err ("bad request: invalid type for " +:+ value +:+ ": "
                     +:+ type)))
          StatusBadRequest
    | inr (OtherError e) =>
        writeResponse (inl (Err ("bad request: " +:+ Error e)))
          StatusBadRequest
    | inl urls =>
        if bool_decide (length urls = 0) then
          writeResponse (inl (Err "bad request: no URLs passed"))
            StatusBadRequest
        else if bool_decide (maxURLsNumber < length urls) then
          writeResponse
            (inl (Err ("max number of URLs exceeded: "
                       +:+ pretty (length urls) +:+ " of "
                       +:+ pretty maxURLsNumber)))
            StatusBadRequest
        else
          match crawl urls with
          | (_, Some err) => writeResponse (inl err) StatusInternalServerError
          | (results, None) =>
              writeResponse (inr (fill (default [] results))) StatusOK
          end
    end.

(** The requests that reach the crawler, with the URLs they carry. *)
Definition admits (r : Request) (urls : list string) : Prop :=
  Method r = MethodPost ∧ ContentType r = contentTypeJSON
  ∧ ContentLength r ≠ 0%Z ∧ decode (Body r) = inl urls
  ∧ 1 ≤ length urls ≤ maxURLsNumber.

End WithDeps.

(** A stand-in for the decoder: the URLs are the words of the body. *)
Fixpoint words (acc : string) (b : string) : list string :=
  match b with
  | EmptyString => if bool_decide (acc = EmptyString) then [] else [acc]
  | String a rest =>
      if bool_decide (a = Ascii.ascii_of_nat 32)
      then acc :: words EmptyString rest
      else words (acc +:+ String a EmptyString) rest
  end.

Definition decode0 (b : string) : list string + decodeError :=
  inl (words EmptyString b).

Definition post (b : string) : Request :=
  {| Method := "POST"; ContentType := "application/json";
     ContentLength := Z.of_nat (String.length b); Body := b |}.

(** A crawler that answers every URL well. *)
Definition crawl_ok (urls : list string)
  : option (list Result) * option error :=
  (Some ((λ u, {| SourceURL := u; StatusCode := 200; ResponseBody := "{}";
                  err := None |}) <$> urls), None).

(** The crawler, on a list it rejects in its validation loop. *)
Definition crawl_rejecting (urls : list string)
  : option (list Result) * option error :=
  default (None, None) (returned (Crawl lib0 defaultConfig None urls)).

End Handler.

(* ===================================================================== *)
(** * Properties of the admission semaphore *)
(* ===================================================================== *)

Module RateLimiterFacts.
Import RateLimiter.

Lemma held_Release rl : held (Release rl) = (held rl - 1)%Z.
Proof. unfold held, Release. destruct (window rl); simpl; lia. Qed.

Lemma held_send_window rl : held (send_window rl) = (held rl + 1)%Z.
Proof. unfold held, send_window. destruct (receivers rl); simpl; lia. Qed.









End RateLimiterFacts.

(* ===================================================================== *)
(** * Properties of the acceptor *)
(* ===================================================================== *)

Module ListenerFacts.
Import RateLimiter Listener RateLimiterFacts.

Lemma conn_Closes_fired unders cn rl :
  cn_once cn = true → conn_Closes unders cn rl = (cn, rl).
Proof.
  revert cn rl. induction unders as [|u us IH]; intros cn rl Ho; [done|].
  simpl. unfold conn_Close. rewrite Ho. by apply IH.
Qed.

Lemma Accept_conn pick c rl cn e rl1 :
  Accept pick (inl c) rl = Some ((Some cn, e), rl1) →
  cn = {| Conn := c; cn_once := false |}.
Proof.
  unfold Accept. destruct (Acquire pick rl) as [[b r]|]; [|done].
  by inversion 1.
Qed.

(** C4: a connection returned by [Accept] gives its slot back exactly
    once, however many times (at least once) it is closed: after the
    [Close] calls the limiter is in the state one [Release] leaves it in,
    one slot fewer is held, and any further [Close], whatever the limiter
    has become in the meantime, leaves the limiter as it finds it. *)
Theorem conn_Close_releases_once pick c rl cn rl1 (unders : list (option error)) :
  Accept pick (inl c) rl = Some ((Some cn, None), rl1) →
  unders ≠ [] →
  conn_Closes unders cn rl1 = ({| Conn := c; cn_once := true |}, Release rl1)
  ∧ held (conn_Closes unders cn rl1).2 = (held rl1 - 1)%Z
  ∧ ∀ u rl2, (conn_Close u (conn_Closes unders cn rl1).1 rl2).2 = rl2.
Proof.
  intros Ha Hne. apply Accept_conn in Ha as ->.
  destruct unders as [|u us]; [done|].
  assert (Heq : conn_Closes (u :: us) {| Conn := c; cn_once := false |} rl1
                = ({| Conn := c; cn_once := true |}, Release rl1)).
  { simpl. by apply conn_Closes_fired. }
  rewrite Heq. split_and!; [done|apply held_Release|done].
Qed.

Lemma conn_Close_releases_once_witness :
  conn_Closes [None; Some (Err "use of closed network connection"); None]
    {| Conn := 7; cn_once := false |} (send_window (New 2))
  = ({| Conn := 7; cn_once := true |}, New 2).
Proof.
  pose proof (conn_Close_releases_once CaseWindow 7 (New 2)
    {| Conn := 7; cn_once := false |} (send_window (New 2))
    [None; Some (Err "use of closed network connection"); None]
    eq_refl ltac:(discriminate)) as (H & _ & _).
  exact H.
Defined.

(** C10: once the gate is closed, [Acquire] can return [false]; if the
    embedded [Accept] then succeeds, [listener.Accept] still returns a
    connection, and closing that connection calls [Release]: one slot
    fewer is held although the accept took none. *)
Theorem Accept_on_closed_gate_releases rl c :
  done rl = true →
  Acquire CaseDone rl = Some (false, rl)
  ∧ Accept CaseDone (inl c) rl
    = Some ((Some {| Conn := c; cn_once := false |}, None), rl)
  ∧ ∀ u, conn_Close u {| Conn := c; cn_once := false |} rl
         = (u, {| Conn := c; cn_once := true |}, Release rl)
         ∧ held (Release rl) = (held rl - 1)%Z.
Proof.
  intros Hd.
  assert (HD : Acquire CaseDone rl = Some (false, rl)).
  { simpl. unfold done_ready. by rewrite Hd. }
  split_and!; [done| |].
  - unfold Accept. by rewrite HD.
  - intros u. split; [done|]. apply held_Release.
Qed.

Lemma Accept_on_closed_gate_releases_witness :
  Accept CaseDone (inl 3) (Done (New 1))
  = Some ((Some {| Conn := 3; cn_once := false |}, None), Done (New 1))
  ∧ held (Done (New 1)) = 0%Z
  ∧ held (conn_Close None {| Conn := 3; cn_once := false |} (Done (New 1))).2
    = (-1)%Z.
Proof.
  pose proof (Accept_on_closed_gate_releases (Done (New 1)) 3 eq_refl)
    as (_ & Ha & Hc).
  split_and!; [exact Ha|reflexivity|].
  destruct (Hc None) as [-> _]. reflexivity.
Defined.

End ListenerFacts.

(* ===================================================================== *)
(** * Properties of the dispatcher *)
(* ===================================================================== *)

Module CrawlerFacts.
Import Crawler.

(** ** Lists of workers *)

Lemma bind_insert {A B} (f : A → list B) (ws : list A) i w w' :
  ws !! i = Some w →
  ∃ rest, ws ≫= f ≡ₚ f w ++ rest ∧ <[i:=w']> ws ≫= f ≡ₚ f w' ++ rest.
Proof.
  revert i. induction ws as [|x ws IH]; intros [|i] Hi; simplify_eq/=.
  - by exists (ws ≫= f).
  - destruct (IH _ Hi) as (rest & H1 & H2).
    exists (f x ++ rest). rewrite H1, H2. split; solve_Permutation.
Qed.

Lemma elem_of_insert_inv {A} (l : list A) i x y :
  x ∈ <[i:=y]> l → x = y ∨ x ∈ l.
Proof.
  revert i. induction l as [|a l IH]; intros [|i]; simpl;
    rewrite ?elem_of_cons; try tauto.
  intros [->|H]; [tauto|]. apply IH in H. tauto.
Qed.

Lemma sum_insert {A} (f : A → nat) (ws : list A) i w w' :
  ws !! i = Some w →
  sum_list (f <$> <[i:=w']> ws) + f w = sum_list (f <$> ws) + f w'.
Proof.
  revert i. induction ws as [|x ws IH]; intros [|i] Hi; simplify_eq/=.
  - lia.
  - specialize (IH _ Hi). lia.
Qed.

Lemma sending_insert ws i w w' :
  ws !! i = Some w →
  holds w' ++ sending ws ≡ₚ holds w ++ sending (<[i:=w']> ws).
Proof.
  intros Hi. destruct (bind_insert holds ws i w w' Hi) as (rest & H1 & H2).
  unfold sending. rewrite H1, H2. solve_Permutation.
Qed.

Lemma sending_replicate n : sending (replicate n AtSelect) = [].
Proof. induction n as [|n IH]; [done|]. exact IH. Qed.

Lemma weight_replicate n : sum_list (weight <$> replicate n AtSelect) = n.
Proof. induction n as [|n IH]; [done|]. simpl. f_equal. exact IH. Qed.

Lemma all_exited_sending ws : all_exited ws = true → sending ws = [].
Proof.
  induction ws as [|w ws IH]; [done|]. simpl.
  intros [Hw Hws]%andb_prop. apply bool_decide_eq_true in Hw as ->.
  by apply IH.
Qed.

Lemma not_all_exited ws :
  all_exited ws = false → ∃ i w, ws !! i = Some w ∧ w ≠ Exited.
Proof.
  induction ws as [|w ws IH]; [done|]. simpl.
  destruct (bool_decide (w = Exited)) eqn:Hw; simpl.
  - intros (i & w' & ? & ?)%IH. by exists (S i), w'.
  - intros _. apply bool_decide_eq_false in Hw. by exists 0, w.
Qed.

Lemma first_failed_snoc rs r :
  first_failed (rs ++ [r])
  = match first_failed rs with
    | Some x => Some x
    | None => if failed r then Some r else None
    end.
Proof.
  induction rs as [|x rs IH]; simpl; [by destruct (failed r)|].
  by destruct (failed x).
Qed.

Lemma first_failed_None rs :
  first_failed rs = None ↔ Forall (λ r, failed r = false) rs.
Proof.
  induction rs as [|x rs IH]; simpl; [by split; [constructor|]|].
  rewrite Forall_cons. destruct (failed x) eqn:Hx.
  - split; [discriminate|]. intros [? _]. congruence.
  - rewrite IH. tauto.
Qed.

Lemma first_failed_Some rs r : first_failed rs = Some r → failed r = true.
Proof.
  induction rs as [|x rs IH]; simpl; [done|].
  destruct (failed x) eqn:Hx; [|done]. by intros [= <-].
Qed.

Lemma failed_err r : failed r = true ↔ ∃ e, err r = Some e.
Proof. unfold failed. rewrite bool_decide_eq_true. reflexivity. Qed.

Lemma not_failed_err r : failed r = false ↔ err r = None.
Proof.
  unfold failed. rewrite bool_decide_eq_false, <-eq_None_not_Some. reflexivity.
Qed.

Section WithLib.
Context (L : Lib).

(** ** The validation loop *)

Lemma enqueue_ok urls :
  Forall (λ u, url_ok L u = true) urls → enqueue L urls = (urls, None).
Proof.
  induction 1 as [|u urls Hu _ IH]; [done|]. simpl. by rewrite Hu, IH.
Qed.

Lemma enqueue_invalid urls :
  (∃ u, u ∈ urls ∧ url_ok L u = false) →
  ∃ pre u0 post,
    urls = pre ++ u0 :: post
    ∧ Forall (λ u, url_ok L u = true) pre
    ∧ url_ok L u0 = false
    ∧ (enqueue L urls).2 = Some (invalidURL L u0).
Proof.
  induction urls as [|u urls IH]; intros (x & Hx & Hbad).
  { by apply elem_of_nil in Hx. }
  destruct (url_ok L u) eqn:Hu.
  - destruct IH as (pre & u0 & post & -> & Hpre & Hu0 & He).
    { apply elem_of_cons in Hx as [->|Hx]; [congruence|]. eauto. }
    exists (u :: pre), u0, post. split_and!; [done|by constructor|done|].
    simpl. rewrite Hu. by destruct (enqueue L (pre ++ u0 :: post)).
  - exists [], u, urls. split_and!; [done|constructor|done|].
    simpl. by rewrite Hu.
Qed.

Lemma numWorkers_min cfg urls :
  numWorkers cfg urls = min (MaxConnections cfg) (length urls).
Proof. unfold numWorkers. case_bool_decide; lia. Qed.

(** ** Runs *)

Lemma step_returned ev s : is_Some (returned s) → step L ev s = None.
Proof. intros [p Hp]. unfold step. by rewrite Hp. Qed.

Lemma run_returned sched s s' :
  is_Some (returned s) → run L sched s = Some s' → s' = s.
Proof.
  intros Hr. destruct sched as [|ev sched]; simpl; [congruence|].
  by rewrite step_returned.
Qed.

(** The two steps of a worker through [crawl] produce what [crawl]
    returns for the context seen on entry. *)
Lemma Enter_Respond_crawl i url resp s s1 s2 :
  returned s = None → workers s !! i = Some (InCrawl url) →
  step L (Enter i) s = Some s1 → step L (Respond i resp) s1 = Some s2 →
  workers s2 !! i = Some (Sending (crawl L (ctx s) url resp)).
Proof.
  intros Hret Hi. unfold step, crawl. rewrite Hret, Hi.
  destruct (crawl_enter L (ctx s) url) as [r|[]]; intros [= <-]; simpl;
    rewrite Hret, list_lookup_insert_eq by (by eapply lookup_lt_Some);
    [done|].
  intros [= <-]. simpl. rewrite list_insert_insert_eq.
  by rewrite list_lookup_insert_eq by (by eapply lookup_lt_Some).
Qed.

(** Reachability is closed under the invariants of [step]. *)
Lemma run_ind (P : state → Prop) sched s s' :
  (∀ ev s1 s2, P s1 → step L ev s1 = Some s2 → P s2) →
  P s → run L sched s = Some s' → P s'.
Proof.
  intros Hstep. revert s. induction sched as [|ev sched IH]; intros s Hs; simpl.
  - by intros [= <-].
  - destruct (step L ev s) as [s1|] eqn:H1; [|done]. eauto.
Qed.

(** ** The invariant *)

Lemma Inv_produce i w r s :
  workers s !! i = Some w → holds w = [] → returned s = None →
  Inv L s → Inv L (produce i r s).
Proof.
  intros Hi Hw Hret [He Ho Hf Hr]. constructor; simpl; try done.
  - pose proof (sending_insert _ _ _ (Sending r) Hi) as Hs.
    rewrite Hw in Hs. simpl in Hs. rewrite <-Hs, Hf. solve_Permutation.
  - by rewrite Hret.
Qed.

Lemma Inv_set_worker i w w' s :
  workers s !! i = Some w → holds w = [] → holds w' = [] →
  returned s = None → Inv L s → Inv L (set_worker i w' s).
Proof.
  intros Hi Hw Hw' Hret [He Ho Hf Hr]. constructor; simpl; try done.
  - pose proof (sending_insert _ _ _ w' Hi) as Hs.
    rewrite Hw, Hw' in Hs. simpl in Hs. by rewrite <-Hs.
  - by rewrite Hret.
Qed.

Lemma Inv_collect i r s :
  workers s !! i = Some (Sending r) → returned s = None →
  Inv L s → Inv L (collect L i r s).
Proof.
  intros Hi Hret [He Ho Hf Hr].
  pose proof (sending_insert _ _ _ AtSelect Hi) as Hs. simpl in Hs.
  assert (Hf' : fetched s ≡ₚ (seen s ++ [r]) ++ sending (<[i:=AtSelect]> (workers s))).
  { rewrite Hf, Hs. solve_Permutation. }
  unfold collect. destruct (exitErr s) as [e|] eqn:Hx.
  - constructor; simpl; try done.
    + rewrite first_failed_snoc.
      destruct (first_failed (seen s)); [done|]. discriminate.
    + by rewrite Hret.
  - destruct (err r) as [e|] eqn:Hr'.
    + constructor; simpl; try done.
      * rewrite first_failed_snoc.
        destruct (first_failed (seen s)) as [x|] eqn:Hff.
        { simpl in He. apply first_failed_Some, failed_err in Hff as [e' He'].
          unfold wrapped in He. rewrite He' in He. discriminate. }
        assert (failed r = true) as -> by (apply failed_err; eauto).
        simpl. unfold wrapped. by rewrite Hr'.
      * by rewrite Hret.
    + constructor; simpl; try done.
      * rewrite first_failed_snoc.
        destruct (first_failed (seen s)) as [x|] eqn:Hff.
        { simpl in He. apply first_failed_Some, failed_err in Hff as [e' He'].
          unfold wrapped in He. rewrite He' in He. discriminate. }
        by assert (failed r = false) as -> by (by apply not_failed_err).
      * intros _. by rewrite Ho.
      * by rewrite Hret.
Qed.

Lemma Inv_step ev s s' : Inv L s → step L ev s = Some s' → Inv L s'.
Proof.
  intros HI. unfold step.
  destruct (returned s) as [p|] eqn:Hret; [done|].
  destruct ev as [reason|i|i|i|i resp|i|]; simpl.
  - destruct (parent s); [done|]. intros [= <-].
    destruct HI as [He Ho Hf Hr]. constructor; simpl; try done.
  - destruct (workers s !! i) as [[]|] eqn:Hi; try done.
    destruct (ctx s); [|done]. intros [= <-].
    by eapply Inv_set_worker.
  - destruct (workers s !! i) as [[]|] eqn:Hi; try done.
    destruct (tasks s) as [|url rest]; intros [= <-].
    + by eapply Inv_set_worker.
    + pose proof (Inv_set_worker i _ (InCrawl url) s Hi eq_refl eq_refl Hret HI)
        as [He Ho Hf Hr].
      constructor; simpl in *; try done.
  - destruct (workers s !! i) as [[]|] eqn:Hi; try done.
    destruct (crawl_enter L (ctx s) url); intros [= <-].
    + by eapply Inv_produce.
    + by eapply Inv_set_worker.
  - destruct (workers s !! i) as [[]|] eqn:Hi; try done.
    intros [= <-]. by eapply Inv_produce.
  - destruct (workers s !! i) as [[]|] eqn:Hi; try done.
    intros [= <-]. by eapply Inv_collect.
  - destruct (all_exited (workers s)) eqn:Hall; [|done]. intros [= <-].
    destruct HI as [He Ho Hf Hr]. constructor; simpl; try done.
    intros p [= <-]. done.
Qed.

Lemma step_fuel ev s s' : step L ev s = Some s' → fuel s' < fuel s.
Proof.
  unfold step, fuel.
  destruct (returned s) as [p|] eqn:Hret; [done|].
  destruct ev as [reason|i|i|i|i resp|i|]; simpl.
  - destruct (parent s); [done|]. intros [= <-]. simpl. rewrite ?Hret. lia.
  - destruct (workers s !! i) as [[]|] eqn:Hi; try done.
    destruct (ctx s); [|done]. intros [= <-]. simpl. rewrite ?Hret.
    pose proof (sum_insert weight _ _ _ Exited Hi). simpl in *. lia.
  - destruct (workers s !! i) as [[]|] eqn:Hi; try done.
    destruct (tasks s) as [|url rest] eqn:Ht; intros [= <-]; simpl;
      rewrite ?Hret, ?Ht.
    + pose proof (sum_insert weight _ _ _ Exited Hi). simpl in *. lia.
    + pose proof (sum_insert weight _ _ _ (InCrawl url) Hi). simpl in *. lia.
  - destruct (workers s !! i) as [[]|] eqn:Hi; try done.
    destruct (crawl_enter L (ctx s) url); intros [= <-]; simpl; rewrite ?Hret.
    + pose proof (sum_insert weight _ _ _ (Sending r) Hi). simpl in *. lia.
    + pose proof (sum_insert weight _ _ _ (InFlight url) Hi). simpl in *. lia.
  - destruct (workers s !! i) as [[]|] eqn:Hi; try done.
    intros [= <-]. simpl. rewrite ?Hret.
    pose proof (sum_insert weight _ _ _ (Sending (crawl_finish L url resp)) Hi).
    simpl in *. lia.
  - destruct (workers s !! i) as [[]|] eqn:Hi; try done.
    intros [= <-].
    pose proof (sum_insert weight _ _ _ AtSelect Hi). simpl in *.
    unfold collect. destruct (exitErr s); [|destruct (err r)]; simpl; rewrite ?Hret; lia.
  - destruct (all_exited (workers s)); [|done]. intros [= <-]. simpl. lia.
Qed.

Lemma run_fuel sched s s' :
  run L sched s = Some s' → length sched + fuel s' ≤ fuel s.
Proof.
  revert s. induction sched as [|ev sched IH]; intros s; simpl.
  - intros [= <-]. lia.
  - destruct (step L ev s) as [s1|] eqn:H1; [|done].
    intros H%IH. apply step_fuel in H1. lia.
Qed.

Lemma progress s : returned s = None → ∃ ev s', step L ev s = Some s'.
Proof.
  intros Hret. destruct (all_exited (workers s)) eqn:Hall.
  - exists Finish. unfold step. rewrite Hret, Hall. eauto.
  - apply not_all_exited in Hall as (i & w & Hi & Hw).
    destruct w as [|url|url|r|]; [| | | |done].
    + exists (Pull i). unfold step. rewrite Hret, Hi. destruct (tasks s); eauto.
    + exists (Enter i). unfold step. rewrite Hret, Hi.
      destruct (crawl_enter L (ctx s) url); eauto.
    + exists (Respond i (inr Canceled)). unfold step. rewrite Hret, Hi. eauto.
    + exists (Recv i). unfold step. rewrite Hret, Hi. eauto.
Qed.
(** ** The start of a call *)

Lemma Crawl_cases cfg c urls :
  (∃ res e, Crawl L cfg c urls = giveBack res e c
            ∧ (c = None → urls ≠ [] → ∃ u, u ∈ urls ∧ url_ok L u = false ∧ res = None ∧ is_Some e))
  ∨ (c = None ∧ urls ≠ [] ∧ Forall (λ u, url_ok L u = true) urls
     ∧ Crawl L cfg c urls
       = {| parent := None; ctx := None; tasks := urls;
            workers := replicate (numWorkers cfg urls) AtSelect;
            exitErr := None; out := []; returned := None;
            fetched := []; seen := [] |}).
Proof.
  unfold Crawl. destruct c as [e|].
  { left. exists None, (Some e). split; [done|]. discriminate. }
  destruct urls as [|u urls].
  { left. exists None, None. split; [done|]. done. }
  destruct (decide (Forall (λ u, url_ok L u = true) (u :: urls))) as [Hok|Hbad].
  - right. rewrite (enqueue_ok _ Hok). done.
  - left. apply not_Forall_Exists in Hbad; [|apply _].
    apply Exists_exists in Hbad as (x & Hx & Hxb).
    apply not_true_is_false in Hxb.
    destruct (enqueue_invalid (u :: urls)) as (pre & u0 & post & Heq & _ & Hu0 & He);
      [eauto|].
    destruct (enqueue L (u :: urls)) as [q [e|]] eqn:Henq; simpl in He; [|done].
    exists None, (Some e). split; [done|]. intros _ _. exists u0.
    split_and!; [|done|done|eauto].
    rewrite Heq, elem_of_app, elem_of_cons. auto.
Qed.

Lemma Inv_Crawl cfg c urls :
  returned (Crawl L cfg c urls) = None → Inv L (Crawl L cfg c urls).
Proof.
  destruct (Crawl_cases cfg c urls) as [(res & e & -> & _)|(_ & _ & _ & ->)];
    [done|]. intros _. constructor; simpl; try done.
  by rewrite sending_replicate.
Qed.

Lemma fetched_Crawl cfg c urls : fetched (Crawl L cfg c urls) = [].
Proof.
  by destruct (Crawl_cases cfg c urls) as [(res & e & -> & _)|(_ & _ & _ & ->)].
Qed.

Lemma fuel_Crawl cfg c urls : fuel (Crawl L cfg c urls) ≤ 5 * length urls + 2.
Proof.
  destruct (Crawl_cases cfg c urls) as [(res & e & -> & _)|(_ & _ & _ & ->)];
    unfold fuel; simpl.
  - destruct c; lia.
  - rewrite weight_replicate, numWorkers_min. lia.
Qed.

Lemma Inv_run cfg c urls sched s :
  run L sched (Crawl L cfg c urls) = Some s →
  s = Crawl L cfg c urls ∧ is_Some (returned s) ∨ Inv L s.
Proof.
  intros Hrun. destruct (returned (Crawl L cfg c urls)) as [p|] eqn:Hret.
  - left. apply run_returned in Hrun; [|by rewrite Hret]. subst. by rewrite Hret.
  - right. eapply run_ind; [| |exact Hrun].
    + intros ev s1 s2. apply Inv_step.
    + by apply Inv_Crawl.
Qed.

Lemma returned_seen s p :
  Inv L s → returned s = Some p → fetched s ≡ₚ seen s ∧ p = verdict s.
Proof.
  intros [He Ho Hf Hr] Hp. destruct (Hr _ Hp) as [Hall ->]. split; [|done].
  by rewrite Hf, (all_exited_sending _ Hall), app_nil_r.
Qed.

(** ** Claims on the return value *)

(** C1: in every run of [Crawl] in which some fetch task fails, however
    the workers, the network and the caller's context interleave, the
    call keeps making progress until it returns, within a bounded number
    of events, and it returns nil results together with the first failed
    result the collecting loop received, wrapped with the URL of that
    result: no partial result set comes back. *)
Theorem Crawl_first_error_wins cfg c urls sched s :
  run L sched (Crawl L cfg c urls) = Some s →
  (∃ r, r ∈ fetched s ∧ failed r = true) →
  length sched ≤ 5 * length urls + 2
  ∧ (returned s = None → ∃ ev s', step L ev s = Some s')
  ∧ ∀ res e, returned s = Some (res, e) →
      res = None
      ∧ ∃ r e0, first_failed (seen s) = Some r ∧ err r = Some e0
                ∧ e = Some (Wrap ("failed to crawl " +:+ Quote L (SourceURL r)) e0).
Proof.
  intros Hrun (r & Hr & Hfail). split_and!.
  - pose proof (run_fuel _ _ _ Hrun). pose proof (fuel_Crawl cfg c urls). lia.
  - apply progress.
  - intros res e Hret.
    destruct (Inv_run _ _ _ _ _ Hrun) as [[-> _]|HI].
    { rewrite fetched_Crawl in Hr. by apply elem_of_nil in Hr. }
    destruct (returned_seen _ _ HI Hret) as [Hperm Hv].
    destruct (first_failed (seen s)) as [r0|] eqn:Hff.
    + pose proof (first_failed_Some _ _ Hff) as [e0 He0]%failed_err.
      pose proof (inv_exitErr _ _ HI) as Hx. rewrite Hff in Hx. simpl in Hx.
      unfold wrapped in Hx. rewrite He0 in Hx. simpl in Hx.
      unfold verdict in Hv. rewrite Hx in Hv. inversion Hv; subst.
      split; [done|]. by exists r0, e0.
    + apply first_failed_None in Hff. rewrite <-Hperm in Hff.
      rewrite Forall_forall in Hff. specialize (Hff _ Hr). congruence.
Qed.

(** C6, amended: in every run of [Crawl], called with a context that is
    not yet cancelled, in which every URL of the list is fetched and
    every fetch succeeds, the call keeps making progress until it
    returns, and it returns a nil error and a result list as long as the
    input list. *)
Theorem Crawl_all_succeed cfg urls sched s :
  run L sched (Crawl L cfg None urls) = Some s →
  SourceURL <$> fetched s ≡ₚ urls →
  Forall (λ r, failed r = false) (fetched s) →
  length sched ≤ 5 * length urls + 2
  ∧ (returned s = None → ∃ ev s', step L ev s = Some s')
  ∧ ∀ res e, returned s = Some (res, e) →
      e = None ∧ len res = length urls.
Proof.
  intros Hrun Hall Hok. split_and!.
  - pose proof (run_fuel _ _ _ Hrun). pose proof (fuel_Crawl cfg None urls). lia.
  - apply progress.
  - intros res e Hret.
    destruct (Inv_run _ _ _ _ _ Hrun) as [[-> _]|HI].
    { rewrite fetched_Crawl in Hall. simpl in Hall.
      apply Permutation_nil_l in Hall as <-.
      simpl in Hret. by inversion Hret. }
    destruct (returned_seen _ _ HI Hret) as [Hperm Hv].
    rewrite Hperm in Hok. apply first_failed_None in Hok.
    pose proof (inv_exitErr _ _ HI) as Hx. rewrite Hok in Hx. simpl in Hx.
    unfold verdict in Hv. rewrite Hx in Hv. inversion Hv; subst.
    split; [done|]. simpl. rewrite (inv_out _ _ HI Hx), <-Hperm.
    by rewrite <-Hall, length_fmap.
Qed.

Lemma step_workers ev s s' :
  step L ev s = Some s' → length (workers s') = length (workers s).
Proof.
  unfold step. destruct (returned s); [done|].
  destruct ev as [reason|i|i|i|i resp|i|]; simpl.
  - destruct (parent s); [done|]. by intros [= <-].
  - destruct (workers s !! i) as [[]|]; try done.
    destruct (ctx s); [|done]. intros [= <-]. apply length_insert.
  - destruct (workers s !! i) as [[]|]; try done.
    destruct (tasks s); intros [= <-]; apply length_insert.
  - destruct (workers s !! i) as [[]|]; try done.
    destruct (crawl_enter L (ctx s) url); intros [= <-]; apply length_insert.
  - destruct (workers s !! i) as [[]|]; try done.
    intros [= <-]. apply length_insert.
  - destruct (workers s !! i) as [[]|]; try done.
    intros [= <-]. unfold collect.
    destruct (exitErr s); [|destruct (err r)]; apply length_insert.
  - destruct (all_exited (workers s)); [|done]. by intros [= <-].
Qed.

Lemma run_workers sched s s' :
  run L sched s = Some s' → length (workers s') = length (workers s).
Proof.
  intros Hrun.
  apply (run_ind (λ x, length (workers x) = length (workers s)) _ _ _)
    in Hrun; [done| |done].
  intros ev s1 s2 <-. apply step_workers.
Qed.

(** C5, amended: when the context is not cancelled at the call, the list
    is non-empty and every URL passes the check of the validation loop,
    [Crawl] launches [min MaxConnections (len urls)] workers, and that is
    their number throughout every run; otherwise [Crawl] has returned
    before launching any worker: no worker exists and no event follows.
    In every case the number of workers exceeds neither bound. *)
Theorem Crawl_numWorkers cfg c urls sched s :
  run L sched (Crawl L cfg c urls) = Some s →
  length (workers s) ≤ min (MaxConnections cfg) (length urls)
  ∧ (c = None → urls ≠ [] → Forall (λ u, url_ok L u = true) urls →
     returned (Crawl L cfg c urls) = None
     ∧ workers (Crawl L cfg c urls)
       = replicate (min (MaxConnections cfg) (length urls)) AtSelect
     ∧ length (workers s) = min (MaxConnections cfg) (length urls))
  ∧ (is_Some c ∨ urls = [] ∨ (∃ u, u ∈ urls ∧ url_ok L u = false) →
     is_Some (returned (Crawl L cfg c urls))
     ∧ workers (Crawl L cfg c urls) = []
     ∧ sched = [] ∧ s = Crawl L cfg c urls).
Proof.
  intros Hrun. rewrite (run_workers _ _ _ Hrun).
  destruct (Crawl_cases cfg c urls)
    as [(res & e & Heq & Hbad)|(Hc & Hne & Hok & Heq)].
  - rewrite Heq in *. simpl. split_and!; [lia| |].
    + intros Hc0 Hne0 Hok0. destruct (Hbad Hc0 Hne0) as (u & Hu & Hub & _).
      rewrite Forall_forall in Hok0. specialize (Hok0 _ Hu). congruence.
    + intros _. split_and!; [by eexists|done| |].
      * destruct sched as [|ev sched]; [done|]. simpl in Hrun. done.
      * apply run_returned in Hrun; [done|by eexists].
  - rewrite Heq. simpl. rewrite length_replicate, numWorkers_min.
    split_and!; [lia|done|].
    intros [[e He]|[Hnil|(u & Hu & Hub)]]; [congruence|done|].
    rewrite Forall_forall in Hok. specialize (Hok _ Hu). congruence.
Qed.

(** ** Where results come from *)

Lemma crawl_enter_origin c url r :
  crawl_enter L c url = inl r →
  SourceURL r = url
  ∧ ∀ e, err r = Some (Wrap "create a request" e) → NewRequest L url = Some e.
Proof.
  unfold crawl_enter. destruct c as [e0|].
  - intros [= <-]. split; [done|]. intros e [=].
  - destruct (NewRequest L url) as [e0|]; [|done]. intros [= <-].
    split; [done|]. by intros e [= ->].
Qed.

Lemma crawl_finish_origin url resp :
  SourceURL (crawl_finish L url resp) = url
  ∧ ∀ e, err (crawl_finish L url resp) ≠ Some (Wrap "create a request" e).
Proof.
  unfold crawl_finish. destruct resp as [r|e0]; [|by split].
  case_bool_decide; [by split|]. destruct (Body r) as [body|e0]; [|by split].
  destruct (Unmarshal L body); [by split|].
  destruct (Compact L body); by split.
Qed.

Lemma Origin_produce urls i r s :
  SourceURL r ∈ urls →
  (∀ e, err r = Some (Wrap "create a request" e) →
        NewRequest L (SourceURL r) = Some e) →
  Origin L urls s → Origin L urls (produce i r s).
Proof.
  intros Hu Hr [Ht Hw Hf]. constructor; simpl; [done| |].
  - intros w u [->|Hin]%elem_of_insert_inv; [by intros [?|?]|eauto].
  - intros r0 [Hin|Heq%list_elem_of_singleton]%elem_of_app; [auto|].
    subst r0. auto.
Qed.

Lemma Origin_set_worker urls i w s :
  (∀ u, w = InCrawl u ∨ w = InFlight u → u ∈ urls) →
  Origin L urls s → Origin L urls (set_worker i w s).
Proof.
  intros Hnew [Ht Hw Hf]. constructor; simpl; [done| |done].
  intros w0 u [->|Hin]%elem_of_insert_inv; eauto.
Qed.

Lemma Origin_step urls ev s s' :
  Origin L urls s → step L ev s = Some s' → Origin L urls s'.
Proof.
  intros HO. unfold step.
  destruct (returned s) as [p|] eqn:Hret; [done|].
  destruct ev as [reason|i|i|i|i resp|i|]; simpl.
  - destruct (parent s); [done|]. intros [= <-].
    destruct HO as [Ht Hw Hf]. by constructor.
  - destruct (workers s !! i) as [[]|] eqn:Hi; try done.
    destruct (ctx s); [|done]. intros [= <-].
    apply Origin_set_worker; [by intros u [?|?]|done].
  - destruct (workers s !! i) as [[]|] eqn:Hi; try done.
    destruct (tasks s) as [|url rest] eqn:Ht; intros [= <-].
    + apply Origin_set_worker; [by intros u [?|?]|done].
    + destruct HO as [Hts Hw Hf]. constructor; simpl; [| |done].
      * intros u Hu. apply Hts. rewrite Ht. apply elem_of_cons. by right.
      * intros w u [->|Hin]%elem_of_insert_inv; [|eauto].
        intros [[= <-]|[=]]. apply Hts. rewrite Ht. apply elem_of_cons. by left.
  - destruct (workers s !! i) as [[]|] eqn:Hi; try done.
    apply list_elem_of_lookup_2 in Hi.
    assert (Hurl : url ∈ urls) by (eapply (origin_workers _ _ _ HO); eauto).
    destruct (crawl_enter L (ctx s) url) as [r|[]] eqn:Hc; intros [= <-].
    + destruct (crawl_enter_origin _ _ _ Hc) as [Hu Hr].
      apply Origin_produce; rewrite ?Hu; done.
    + apply Origin_set_worker; [|done]. by intros u [[= <-]|[= <-]].
  - destruct (workers s !! i) as [[]|] eqn:Hi; try done.
    apply list_elem_of_lookup_2 in Hi.
    assert (Hurl : url ∈ urls) by (eapply (origin_workers _ _ _ HO); eauto).
    intros [= <-]. destruct (crawl_finish_origin url resp) as [Hu Hr].
    apply Origin_produce; rewrite ?Hu; [done| |done].
    intros e He. by apply Hr in He.
  - destruct (workers s !! i) as [[]|] eqn:Hi; try done.
    intros [= <-]. destruct HO as [Ht Hw Hf]. unfold collect.
    destruct (exitErr s); [|destruct (err r)]; constructor; simpl; try done;
      intros w u [->|Hin]%elem_of_insert_inv; eauto; by intros [?|?].
  - destruct (all_exited (workers s)); [|done]. intros [= <-].
    destruct HO as [Ht Hw Hf]. by constructor.
Qed.

Lemma Origin_run cfg c urls sched s :
  run L sched (Crawl L cfg c urls) = Some s →
  Origin L urls s
  ∧ (fetched s ≠ [] → Forall (λ u, url_ok L u = true) urls).
Proof.
  intros Hrun.
  destruct (Crawl_cases cfg c urls)
    as [(res & e & Heq & _)|(_ & _ & Hok & Heq)].
  - rewrite Heq in Hrun. apply run_returned in Hrun; [|by eexists]. subst s.
    split; [|done]. constructor; simpl.
    + by intros u ?%elem_of_nil.
    + by intros w u ?%elem_of_nil.
    + by intros r ?%elem_of_nil.
  - split; [|done]. eapply run_ind; [| |exact Hrun].
    + intros ev s1 s2. apply Origin_step.
    + rewrite Heq. constructor; simpl; [done| |by intros r ?%elem_of_nil].
      intros w u [-> _]%elem_of_replicate. by intros [?|?].
Qed.

(** C2, amended: when the list holds a URL that fails the check of the
    validation loop, [Crawl] fails the whole call before any worker
    exists: it returns nil results and an error, which is the
    [invalid url] error of the first such URL when the context is live
    at the call, and the error of the context when that is done already;
    no task is fetched and nothing runs afterwards.  A
    request-construction error surfaces in a task only for a URL of the
    list that passed that check, as did every URL of the list then, and
    of which [http.NewRequest] makes that error; and it is what a task
    yields that enters [crawl] with such a URL and a live context. *)
Theorem Crawl_rejects_invalid_preflight cfg c urls :
  (∃ u, u ∈ urls ∧ url_ok L u = false) →
  (∃ pre u0 post,
     urls = pre ++ u0 :: post
     ∧ Forall (λ u, url_ok L u = true) pre
     ∧ url_ok L u0 = false
     ∧ Crawl L cfg c urls
       = giveBack None
           (Some match c with
                 | Some e => e
                 | None => Err ("invalid url: " +:+ Quote L u0)
                 end) c
     ∧ workers (Crawl L cfg c urls) = []
     ∧ fetched (Crawl L cfg c urls) = []
     ∧ ∀ ev, step L ev (Crawl L cfg c urls) = None)
  ∧ (∀ cfg' c' urls' sched s r e,
       run L sched (Crawl L cfg' c' urls') = Some s →
       r ∈ fetched s → err r = Some (Wrap "create a request" e) →
       SourceURL r ∈ urls'
       ∧ url_ok L (SourceURL r) = true
       ∧ NewRequest L (SourceURL r) = Some e
       ∧ Forall (λ u, url_ok L u = true) urls')
  ∧ ∀ s i url e,
      returned s = None → ctx s = None →
      workers s !! i = Some (InCrawl url) → NewRequest L url = Some e →
      step L (Enter i) s
      = Some (produce i (fail url (Wrap "create a request" e)) s).
Proof.
  intros Hbad. split_and!.
  - destruct (enqueue_invalid urls Hbad)
      as (pre & u0 & post & Heq & Hpre & Hu0 & He).
    assert (Hc : Crawl L cfg c urls
      = giveBack None
          (Some match c with
                | Some e => e
                | None => Err ("invalid url: " +:+ Quote L u0)
                end) c).
    { unfold Crawl. destruct c as [e|]; [done|].
      destruct urls as [|u urls]; [by destruct pre|].
      destruct (enqueue L (u :: urls)) as [q e]. simpl in He. by subst. }
    exists pre, u0, post. split_and!; [done..| | |].
    + by rewrite Hc.
    + by rewrite Hc.
    + intros ev. rewrite Hc. by apply step_returned.
  - intros cfg' c' urls' sched s r e Hrun Hr He.
    destruct (Origin_run _ _ _ _ _ Hrun) as [HO Hok].
    destruct (origin_fetched _ _ _ HO _ Hr) as [Hin Hreq].
    assert (Hall : Forall (λ u, url_ok L u = true) urls').
    { apply Hok. intros Hnil. rewrite Hnil in Hr. by apply elem_of_nil in Hr. }
    split_and!; [done| |by apply Hreq|done].
    rewrite Forall_forall in Hall. by apply Hall.
  - intros s i url e Hret Hctx Hi Hreq.
    unfold step, crawl_enter. by rewrite Hret, Hi, Hctx, Hreq.
Qed.

(** C7: for the empty list and a context that is not yet cancelled,
    [Crawl] returns at once a nil (hence empty) result set and a nil
    error; no worker exists, and no event of a worker can follow. *)
Theorem Crawl_empty cfg :
  returned (Crawl L cfg None []) = Some (None, None)
  ∧ len None = 0
  ∧ workers (Crawl L cfg None []) = []
  ∧ ∀ sched s, run L sched (Crawl L cfg None []) = Some s → s = Crawl L cfg None [].
Proof.
  split_and!; [done..|]. intros sched s. by apply run_returned.
Qed.

End WithLib.

(** ** The claims on concrete runs *)

Lemma Crawl_first_error_wins_witness :
  run lib0 sched_one_fails (Crawl lib0 defaultConfig None two_urls)
  = Some end_one_fails
  ∧ returned end_one_fails
    = Some (None,
            Some (Wrap ("failed to crawl " +:+ Quote lib0 "http://b")
                    (Err "unexpected response status code: 500")))
  ∧ ∀ res e, returned end_one_fails = Some (res, e) →
      res = None
      ∧ ∃ r e0, first_failed (seen end_one_fails) = Some r ∧ err r = Some e0
          ∧ e = Some (Wrap ("failed to crawl " +:+ Quote lib0 (SourceURL r)) e0).
Proof.
  assert (Hrun : run lib0 sched_one_fails
                   (Crawl lib0 defaultConfig None two_urls)
                 = Some end_one_fails) by reflexivity.
  split_and!; [exact Hrun|reflexivity|].
  refine (proj2 (proj2 (Crawl_first_error_wins lib0 defaultConfig None
                          two_urls sched_one_fails end_one_fails Hrun _))).
  exists (fail "http://b" (Err "unexpected response status code: 500")).
  split; [|reflexivity].
  apply list_elem_of_lookup. by exists 1.
Defined.

(** C6, as stated, fails.  Called with a cancelled context on the empty
    list, where no fetch task exists, let alone fails, [Crawl] returns
    the context's error.  Nor does the claim hold when it is read as "no
    fetch fails": when the caller's context ends during the call, with
    four workers allowed and two URLs that both answer well, the workers
    may leave on [ctx.Done()] with [http://b] never fetched, and [Crawl]
    returns one result for two URLs, with a nil error. *)
Lemma Crawl_all_succeed_fails :
  (fetched (Crawl lib0 defaultConfig (Some Canceled) []) = []
   ∧ returned (Crawl lib0 defaultConfig (Some Canceled) [])
     = Some (None, Some Canceled))
  ∧ (run lib0 sched_caller_cancel (Crawl lib0 defaultConfig None two_urls)
     = Some end_caller_cancel
     ∧ Forall (λ r, failed r = false) (fetched end_caller_cancel)
     ∧ returned end_caller_cancel
       = Some (Some [{| SourceURL := "http://a"; StatusCode := 200;
                        ResponseBody := "{}"; err := None |}], None)
     ∧ length two_urls = 2).
Proof.
  split_and!; try reflexivity.
  by repeat constructor.
Qed.

Lemma Crawl_all_succeed_witness :
  run lib0 sched_all_succeed (Crawl lib0 defaultConfig None two_urls)
  = Some end_all_succeed
  ∧ returned end_all_succeed = Some (Some (out end_all_succeed), None)
  ∧ length (out end_all_succeed) = 2
  ∧ ∀ res e, returned end_all_succeed = Some (res, e) →
      e = None ∧ len res = length two_urls.
Proof.
  assert (Hrun : run lib0 sched_all_succeed
                   (Crawl lib0 defaultConfig None two_urls)
                 = Some end_all_succeed) by reflexivity.
  split_and!; [exact Hrun|reflexivity..|].
  refine (proj2 (proj2 (Crawl_all_succeed lib0 defaultConfig two_urls
                          sched_all_succeed end_all_succeed Hrun _ _))).
  - exact (perm_swap "http://a" "http://b" []).
  - by repeat constructor.
Defined.

(** C5, as stated, fails: a non-empty list whose URL fails the check of
    the validation loop makes [Crawl] return before any worker is
    launched, and so does a context that is already cancelled, while the
    minimum of the two bounds is 1. *)
Lemma Crawl_numWorkers_not_min :
  (length (workers (Crawl lib0 defaultConfig None [bad_url])) = 0
   ∧ length (workers (Crawl lib0 defaultConfig (Some Canceled) ["http://a"])) = 0)
  ∧ min (MaxConnections defaultConfig) (length [bad_url]) = 1.
Proof. split_and!; reflexivity. Qed.

Lemma Crawl_numWorkers_witness :
  run lib0 sched_all_succeed (Crawl lib0 defaultConfig None two_urls)
  = Some end_all_succeed
  ∧ length (workers end_all_succeed) = 2
  ∧ min (MaxConnections defaultConfig) (length two_urls) = 2.
Proof.
  assert (Hrun : run lib0 sched_all_succeed
                   (Crawl lib0 defaultConfig None two_urls)
                 = Some end_all_succeed) by reflexivity.
  split_and!; [exact Hrun| |reflexivity].
  refine (proj2 (proj2 (proj1 (proj2
            (Crawl_numWorkers lib0 defaultConfig None two_urls
               sched_all_succeed end_all_succeed Hrun)) eq_refl _ _))).
  - discriminate.
  - by repeat constructor.
Defined.

(** C2, as stated, fails: with one well-formed and one malformed URL the
    call fails in the validation loop, before a worker exists and before
    any task is fetched; the error is the [invalid url] error of the
    validation loop, not a request-construction error of a task. *)
Lemma Crawl_malformed_fails_preflight :
  url_ok lib0 bad_url = false
  ∧ Crawl lib0 defaultConfig None ["http://a"; bad_url]
    = giveBack None (Some (Err ("invalid url: " +:+ Quote lib0 bad_url))) None
  ∧ workers (Crawl lib0 defaultConfig None ["http://a"; bad_url]) = []
  ∧ fetched (Crawl lib0 defaultConfig None ["http://a"; bad_url]) = []
  ∧ ∀ ev, step lib0 ev (Crawl lib0 defaultConfig None ["http://a"; bad_url])
          = None.
Proof. split_and!; reflexivity. Qed.

Lemma Crawl_rejects_invalid_preflight_witness :
  ∃ pre u0 post,
    ["http://a"; bad_url; "http://b"] = pre ++ u0 :: post
    ∧ Forall (λ u, url_ok lib0 u = true) pre
    ∧ url_ok lib0 u0 = false
    ∧ Crawl lib0 defaultConfig None ["http://a"; bad_url; "http://b"]
      = giveBack None (Some (Err ("invalid url: " +:+ Quote lib0 u0))) None
    ∧ workers (Crawl lib0 defaultConfig None ["http://a"; bad_url; "http://b"])
      = []
    ∧ fetched (Crawl lib0 defaultConfig None ["http://a"; bad_url; "http://b"])
      = []
    ∧ ∀ ev, step lib0 ev
              (Crawl lib0 defaultConfig None ["http://a"; bad_url; "http://b"])
            = None.
Proof.
  refine (proj1 (Crawl_rejects_invalid_preflight lib0 defaultConfig None
                   ["http://a"; bad_url; "http://b"] _)).
  exists bad_url. split; [|reflexivity].
  apply list_elem_of_lookup. by exists 1.
Defined.

End CrawlerFacts.

(* ===================================================================== *)
(** * Properties of the shutdown coordinator *)
(* ===================================================================== *)

Module CloserFacts.
Import Closer.

Lemma RunInv_step regs ev c c' :
  RunInv regs c → step ev c = Some c' → RunInv regs c'.
Proof.
  intros HI. pose proof HI as [Ho Hr Hc Hi Hic He Hl Hd Hf].
  destruct ev as [f| |k| |]; simpl.
  - intros [= <-]. by constructor.
  - destruct (once c) eqn:Hon; [done|..]; by intros [= <-].
  - destruct (goroutines c !! k) as [f|] eqn:Hk; [|done].
    destruct (bool_decide (_ < _)) eqn:Hlt; [|done].
    apply bool_decide_eq_true in Hlt. intros [= <-].
    constructor; simpl; try done.
    + rewrite <-Hr, <-(assoc_L (++)). f_equiv. simpl. symmetry.
      by apply delete_Permutation.
    + rewrite !length_app. simpl. lia.
    + rewrite drop_app_le by lia. by rewrite fmap_app, <-He.
    + rewrite take_app_le by lia. done.
  - destruct (once c) eqn:Hon; try done.
    destruct (errs c) as [|e rest] eqn:Herrs; [done|].
    destruct (bool_decide (_ < _)) eqn:Hlt; [|done].
    apply bool_decide_eq_true in Hlt. intros [= <-].
    simpl in Hi.
    destruct (lookup_lt_is_Some_2 (ran c) (i c)) as [x Hx]; [lia|].
    rewrite (drop_S _ _ _ Hx) in He. simpl in He. inversion He; subst.
    constructor; simpl; try done; try lia.
    rewrite (take_S_r _ _ _ Hx), omap_app, fmap_app, <-Hl. simpl.
    destruct (returns x); simpl; [done|by rewrite app_nil_r].
  - destruct (once c) eqn:Hon; try done.
    destruct (bool_decide (_ < _)) eqn:Hlt; [done|].
    apply bool_decide_eq_false in Hlt. intros [= <-].
    constructor; simpl; try done. intros _. lia.
Qed.

Lemma RunInv_run regs tr c c' :
  RunInv regs c → run tr c = Some c' → RunInv regs c'.
Proof.
  revert c. induction tr as [|ev tr IH]; intros c HI; simpl.
  - by intros [= <-].
  - destruct (step ev c) as [c1|] eqn:H1; [|done].
    apply IH. by eapply RunInv_step.
Qed.

Lemma FreshInv_run tr c c' :
  FreshInv c → run tr c = Some c' →
  (FreshInv c' ∧ funcs c' = funcs c ++ registered tr)
  ∨ RunInv (funcs c ++ registered tr) c'.
Proof.
  revert c. induction tr as [|ev tr IH]; intros c HF; simpl.
  - intros [= <-]. left. by rewrite app_nil_r.
  - destruct HF as [Ho Hd Hg He Hr Hl].
    destruct ev as [f| |k| |]; simpl.
    + intros Hrun. apply IH in Hrun; [|by constructor]. simpl in Hrun.
      by rewrite <-(assoc_L (++)) in Hrun.
    + rewrite Ho. intros Hrun. right. rewrite app_nil_r.
      eapply RunInv_run; [|exact Hrun].
      constructor; simpl; rewrite ?Hr, ?Hd; try done. lia.
    + by rewrite Hg.
    + by rewrite Ho.
    + by rewrite Ho.
Qed.

Lemma FreshInv_New : FreshInv New.
Proof. by constructor. Qed.

Lemma RunInv_room regs c :
  RunInv regs c → goroutines c ≠ [] → length (errs c) < cap_errs c.
Proof.
  intros [Ho Hr Hc Hi Hic He Hl Hd Hf] Hg.
  apply Permutation_length in Hr. rewrite length_app in Hr.
  destruct (goroutines c); [done|]. simpl in Hr. lia.
Qed.

Lemma RunInv_drained regs c :
  RunInv regs c → i c = cap_errs c → goroutines c = [] ∧ errs c = [].
Proof.
  intros [Ho Hr Hc Hi Hic He Hl Hd Hf] Hcap.
  apply Permutation_length in Hr. rewrite length_app in Hr.
  split; apply length_zero_iff_nil; lia.
Qed.

Lemma step_pending ev c c' :
  internal ev = true → step ev c = Some c' → pending c' < pending c.
Proof.
  unfold pending. destruct ev as [f| |k| |]; simpl; try done; intros _.
  - destruct (goroutines c !! k) as [f|] eqn:Hk; [|done].
    case_bool_decide; [|done]. intros [= <-]. simpl.
    pose proof (lookup_lt_Some _ _ _ Hk).
    rewrite length_delete by eauto. rewrite length_app. simpl. lia.
  - destruct (once c); try done. destruct (errs c); [done|].
    case_bool_decide; [|done]. intros [= <-]. simpl. lia.
  - destruct (once c); try done.
    case_bool_decide; [done|]. intros [= <-]. simpl. lia.
Qed.

Lemma RunInv_progress regs c :
  RunInv regs c → once c = Running →
  ∃ ev c', internal ev = true ∧ step ev c = Some c'.
Proof.
  intros HI Hon. pose proof HI as [Ho Hr Hc Hi Hic He Hl Hd Hf].
  destruct (decide (i c < cap_errs c)) as [Hlt|Hge].
  - destruct (errs c) as [|e rest] eqn:Herrs.
    + destruct (goroutines c) as [|f gs] eqn:Hg.
      { apply Permutation_length in Hr. rewrite length_app in Hr.
        simpl in *. lia. }
      exists (RunHook 0). eexists. split; [done|]. simpl. rewrite Hg. simpl.
      rewrite Herrs. simpl. rewrite bool_decide_eq_true_2 by lia. done.
    + exists Drain. eexists. split; [done|]. simpl. rewrite Hon, Herrs.
      rewrite bool_decide_eq_true_2 by done. done.
  - exists Complete. eexists. split; [done|]. simpl. rewrite Hon.
    rewrite bool_decide_eq_false_2 by done. done.
Qed.

Lemma RunInv_completes regs n c :
  pending c ≤ n → RunInv regs c → once c = Running →
  ∃ tr c', Forall (λ ev, internal ev = true) tr
           ∧ run tr c = Some c' ∧ done c' = true.
Proof.
  revert c. induction n as [|n IH]; intros c Hn HI Hon.
  { unfold pending in Hn. rewrite Hon in Hn. lia. }
  destruct (RunInv_progress _ _ HI Hon) as (ev & c1 & Hev & Hstep).
  pose proof (step_pending _ _ _ Hev Hstep) as Hlt.
  pose proof (RunInv_step _ _ _ _ HI Hstep) as HI1.
  destruct (once c1) eqn:Hon1.
  - by destruct HI1.
  - destruct (IH c1) as (tr & c' & Htr & Hrun & Hd); [lia|done|done|].
    exists (ev :: tr), c'. split_and!; [by constructor| |done].
    simpl. by rewrite Hstep.
  - exists [ev], c1. split_and!; [by repeat constructor| |].
    + simpl. by rewrite Hstep.
    + rewrite (run_done _ _ HI1), Hon1. done.
Qed.

Lemma done_step ev c c' : done c = true → step ev c = Some c' → done c' = true.
Proof.
  intros Hd. destruct ev as [f| |k| |]; simpl.
  - by intros [= <-].
  - destruct (once c); by intros [= <-].
  - destruct (goroutines c !! k); [|done]. case_bool_decide; [|done]. by intros [= <-].
  - destruct (once c); try done. destruct (errs c); [done|].
    case_bool_decide; [|done]. by intros [= <-].
  - destruct (once c); try done. case_bool_decide; [done|]. by intros [= <-].
Qed.

Lemma done_run tr c c' : done c = true → run tr c = Some c' → done c' = true.
Proof.
  revert c. induction tr as [|ev tr IH]; intros c Hd; simpl.
  - by intros [= <-].
  - destruct (step ev c) as [c1|] eqn:H1; [|done].
    apply IH. by eapply done_step.
Qed.

Lemma Close_entered c c1 : step Close c = Some c1 → once c1 ≠ Fresh.
Proof. simpl. destruct (once c) eqn:Ho; intros [= <-]; simpl; congruence. Qed.

Lemma Close_again n c : once c ≠ Fresh → run (replicate n Close) c = Some c.
Proof.
  intros Ho. induction n as [|n IH]; [done|]. simpl.
  by destruct (once c).
Qed.

(** C8: [Close] is idempotent.  In every state reached from a new closer,
    a [Close] call that is not the first changes nothing, so that one
    call and any number of calls in a row leave the same state; every
    hook registered before the first [Close] runs at most once, and by
    the time the shutdown is complete each of them has run exactly
    once. *)
Theorem Close_runs_hooks_once tr c :
  run tr New = Some c →
  (once c ≠ Fresh → step Close c = Some c)
  ∧ (∀ n c1, step Close c = Some c1 → run (replicate n Close) c1 = Some c1)
  ∧ ran c ⊆+ registered tr
  ∧ (done c = true → ran c ≡ₚ registered tr).
Proof.
  intros Hrun. split_and!.
  - simpl. by destruct (once c).
  - intros n c1 Hc. by apply Close_again, (Close_entered c).
  - destruct (FreshInv_run _ _ _ FreshInv_New Hrun) as [[HF _]|HI]; simpl in *.
    + rewrite (fresh_ran _ HF). apply submseteq_nil_l.
    + rewrite <-(run_ran _ _ HI). by apply submseteq_inserts_r.
  - intros Hd.
    destruct (FreshInv_run _ _ _ FreshInv_New Hrun) as [[HF _]|HI]; simpl in *.
    + rewrite (fresh_done _ HF) in Hd. done.
    + rewrite (run_done _ _ HI) in Hd. apply bool_decide_eq_true in Hd.
      destruct (RunInv_drained _ _ HI (run_fired _ _ HI Hd)) as [Hg _].
      rewrite <-(run_ran _ _ HI), Hg. by rewrite app_nil_r.
Qed.

Lemma Close_runs_hooks_once_witness :
  run shutdown New = Some end_shutdown
  ∧ registered shutdown = [hook1; hook2]
  ∧ ran end_shutdown = [hook2; hook1]
  ∧ done end_shutdown = true
  ∧ ran end_shutdown ≡ₚ registered shutdown.
Proof.
  assert (Hrun : run shutdown New = Some end_shutdown) by reflexivity.
  split_and!; [exact Hrun|reflexivity..|].
  exact (proj2 (proj2 (proj2 (Close_runs_hooks_once shutdown end_shutdown Hrun)))
           eq_refl).
Defined.

(** C9: [Wait] returns only in a state where every launched hook has run
    and every error a hook returned has its line in the log; while the
    shutdown is running every pending hook can run, whatever the others
    returned, and the shutdown can always be brought to the point where
    [Wait] returns; once the shutdown is complete [Wait] returns at once,
    whatever happens afterwards. *)
Theorem Wait_unblocks_after_hooks tr c :
  run tr New = Some c →
  (Wait c = Some () →
     goroutines c = [] ∧ errs c = [] ∧ ran c ≡ₚ registered tr
     ∧ log c = log_line <$> omap returns (ran c))
  ∧ (once c = Running →
     (∀ k f, goroutines c !! k = Some f → is_Some (step (RunHook k) c))
     ∧ (∃ ev c', internal ev = true ∧ step ev c = Some c')
     ∧ (∀ ev c', internal ev = true → step ev c = Some c' →
          pending c' < pending c)
     ∧ ∃ tr' c', Forall (λ ev, internal ev = true) tr'
                 ∧ run tr' c = Some c' ∧ Wait c' = Some ())
  ∧ (done c = true →
     ∀ tr' c', run tr' c = Some c' → Wait c' = Some ()).
Proof.
  intros Hrun.
  pose proof (FreshInv_run _ _ _ FreshInv_New Hrun) as Hinv. simpl in Hinv.
  split_and!.
  - unfold Wait. destruct (done c) eqn:Hd; [intros _|done].
    destruct Hinv as [[HF _]|HI].
    { rewrite (fresh_done _ HF) in Hd. done. }
    rewrite (run_done _ _ HI) in Hd. apply bool_decide_eq_true in Hd.
    pose proof (run_fired _ _ HI Hd) as Hcap.
    destruct (RunInv_drained _ _ HI Hcap) as [Hg He].
    split_and!; [done..| |].
    + rewrite <-(run_ran _ _ HI), Hg. by rewrite app_nil_r.
    + rewrite (run_log _ _ HI). rewrite take_ge; [done|].
      pose proof (run_i _ _ HI) as Hi. rewrite He in Hi. simpl in Hi. lia.
  - intros Hon. destruct Hinv as [[HF _]|HI].
    { rewrite (fresh_once _ HF) in Hon. done. }
    split_and!.
    + intros k f Hk. simpl. rewrite Hk.
      rewrite bool_decide_eq_true_2; [eauto|].
      eapply RunInv_room; [done|]. intros Hnil. by rewrite Hnil in Hk.
    + by eapply RunInv_progress.
    + intros ev c'. apply step_pending.
    + destruct (RunInv_completes _ _ c (le_n _) HI Hon)
        as (tr' & c' & ? & ? & Hd).
      exists tr', c'. split_and!; [done..|]. unfold Wait. by rewrite Hd.
  - intros Hd tr' c' Hrun'. unfold Wait. by rewrite (done_run _ _ _ Hd Hrun').
Qed.

Lemma Wait_unblocks_after_hooks_witness :
  run half_shutdown New = Some end_half_shutdown
  ∧ Wait end_half_shutdown = None
  ∧ ran end_half_shutdown = [hook2]
  ∧ is_Some (step (RunHook 0) end_half_shutdown)
  ∧ ∃ tr' c', Forall (λ ev, internal ev = true) tr'
              ∧ run tr' end_half_shutdown = Some c' ∧ Wait c' = Some ().
Proof.
  assert (Hrun : run half_shutdown New = Some end_half_shutdown)
    by reflexivity.
  destruct (proj1 (proj2 (Wait_unblocks_after_hooks half_shutdown
                            end_half_shutdown Hrun)) eq_refl)
    as (Hhook & _ & _ & Hlive).
  split_and!; [exact Hrun|reflexivity..| |exact Hlive].
  exact (Hhook 0 hook1 eq_refl).
Defined.

End CloserFacts.

(* ===================================================================== *)
(** * Properties of the acceptor in use *)
(* ===================================================================== *)

Module AdmissionFacts.
Import RateLimiter Listener Admission RateLimiterFacts.

Lemma WF_New lim : WF (RateLimiter.New lim).
Proof. constructor; simpl; [lia|lia|done]. Qed.

Lemma WF_send_window rl : WF rl → window_ready rl = true → WF (send_window rl).
Proof.
  intros [Hw Hr Ho] Hrdy. unfold window_ready in Hrdy. unfold send_window.
  destruct (receivers rl) as [|k] eqn:Hk.
  - rewrite bool_decide_eq_false_2 in Hrdy by lia. simpl in Hrdy.
    apply bool_decide_eq_true in Hrdy. constructor; simpl; [lia|lia|done].
  - constructor; simpl; [done| |done]. intros _. apply Hr. lia.
Qed.

Lemma WF_Release rl : WF rl → WF (Release rl).
Proof.
  intros [Hw Hr Ho]. unfold Release.
  destruct (window rl) as [|k] eqn:Hk; constructor; simpl; try done; lia.
Qed.

Lemma WF_Done rl : WF rl → WF (Done rl).
Proof.
  intros HW. unfold Done. destruct (once rl) eqn:Hon; [done|].
  destruct HW as [Hw Hr Ho]. by constructor.
Qed.

Lemma WF_Acquire pick rl b rl' : WF rl → Acquire pick rl = Some (b, rl') → WF rl'.
Proof.
  intros HW. destruct pick; simpl.
  - destruct (done_ready rl); [|done]. by intros [= <- <-].
  - destruct (window_ready rl) eqn:Hrdy; [|done]. intros [= <- <-].
    by apply WF_send_window.
Qed.

Lemma WF_exec c rl : WF rl → WF (exec c rl).
Proof.
  intros HW. destruct c as [|pick|]; simpl.
  - by apply WF_Done.
  - destruct (Acquire pick rl) as [[b rl']|] eqn:Ha; [|done].
    by eapply WF_Acquire.
  - by apply WF_Release.
Qed.

Lemma WF_execs cs rl : WF rl → WF (execs cs rl).
Proof.
  revert rl. induction cs as [|c cs IH]; intros rl HW; [done|].
  apply IH. by apply WF_exec.
Qed.

Lemma limit_exec c rl : limit (exec c rl) = limit rl.
Proof.
  destruct c as [|pick|]; simpl.
  - unfold Done. by destruct (once rl).
  - destruct pick; simpl.
    + by destruct (done_ready rl).
    + destruct (window_ready rl); [|done]. unfold send_window.
      by destruct (receivers rl).
  - unfold Release. by destruct (window rl).
Qed.

Lemma limit_execs cs rl : limit (execs cs rl) = limit rl.
Proof.
  revert rl. induction cs as [|c cs IH]; intros rl; [done|].
  simpl. fold (execs cs (exec c rl)). by rewrite IH, limit_exec.
Qed.

(** X1: whatever calls are made on a limiter made by [New lim], its
    capacity stays [lim], its buffer never holds more than [lim] tokens,
    receivers are parked only while the buffer is empty, and at most [lim]
    slots are held. *)
Theorem window_within_limit (cs : list call) (lim : nat) :
  let rl := execs cs (RateLimiter.New lim) in
  limit rl = lim
  ∧ window rl ≤ lim
  ∧ (0 < receivers rl → window rl = 0)
  ∧ (held rl ≤ Z.of_nat lim)%Z.
Proof.
  intros rl. pose proof (WF_execs cs _ (WF_New lim)) as [Hw Hr Ho].
  fold rl in Hw, Hr, Ho.
  assert (Hl : limit rl = lim) by apply limit_execs.
  rewrite Hl in Hw. split_and!; [done..|]. unfold held. lia.
Qed.

Lemma Acquire_blocks_WF rl :
  WF rl →
  Acquire_blocks rl ↔ done rl = false ∧ window rl = limit rl ∧ receivers rl = 0.
Proof.
  intros [Hw Hr Ho]. unfold Acquire_blocks. split.
  - intros Hb. pose proof (Hb CaseDone) as H1. pose proof (Hb CaseWindow) as H2.
    simpl in H1, H2. unfold done_ready in H1.
    destruct (done rl); [done|].
    destruct (window_ready rl) eqn:Hrdy; [done|]. unfold window_ready in Hrdy.
    apply orb_false_elim in Hrdy as [Hr1 Hr2].
    apply bool_decide_eq_false in Hr1, Hr2. split_and!; [done|lia|lia].
  - intros (Hd & Hwin & Hrec) pick. destruct pick; simpl.
    + unfold done_ready. by rewrite Hd.
    + unfold window_ready. rewrite !bool_decide_eq_false_2 by lia. done.
Qed.

(** X2: on a limiter reached from [New lim], [Acquire] blocks exactly
    when the gate is open, the buffer is full and no receiver is parked. *)
Theorem Acquire_blocks_iff_full (cs : list call) (lim : nat) :
  let rl := execs cs (RateLimiter.New lim) in
  Acquire_blocks rl ↔ done rl = false ∧ window rl = lim ∧ receivers rl = 0.
Proof.
  intros rl. assert (Hl : limit rl = lim) by apply limit_execs.
  rewrite <-Hl. apply Acquire_blocks_WF, WF_execs, WF_New.
Qed.

Lemma Release_send_window rl : WF rl → Release (send_window rl) = rl.
Proof.
  intros [Hw Hr Ho]. unfold send_window, Release. destruct rl as [w l r d o].
  simpl in *. destruct r as [|k]; simpl; [done|].
  rewrite Hr by lia. done.
Qed.

(** X3: on a limiter reached from [New lim], an [Acquire] that returns
    [true] followed by a [Release] gives back the state before the two
    calls; in between, one more slot is held. *)
Theorem Acquire_then_Release (cs : list call) (lim : nat) pick rl' :
  let rl := execs cs (RateLimiter.New lim) in
  Acquire pick rl = Some (true, rl') →
  Release rl' = rl ∧ held rl' = (held rl + 1)%Z.
Proof.
  intros rl Ha. destruct pick; simpl in Ha.
  - destruct (done_ready rl); congruence.
  - destruct (window_ready rl); [|done]. inversion Ha; subst. split.
    + apply Release_send_window, WF_execs, WF_New.
    + apply held_send_window.
Qed.

Lemma open_gate_exec c rl :
  is_Done c = false → done rl = false → done (exec c rl) = false.
Proof.
  intros Hc Hd. destruct c as [|pick|]; simpl; [done| |].
  - destruct pick; simpl.
    + unfold done_ready. by rewrite Hd.
    + destruct (window_ready rl); [|done]. unfold send_window.
      by destruct (receivers rl).
  - unfold Release. by destruct (window rl).
Qed.

Lemma open_gate_execs cs rl :
  Forall (λ c, is_Done c = false) cs → done rl = false →
  done (execs cs rl) = false.
Proof.
  intros Hcs. revert rl. induction Hcs as [|c cs Hc _ IH]; intros rl Hd; [done|].
  apply IH. by apply open_gate_exec.
Qed.

(** X4: as long as [Done] has not been called the gate is open, and
    [Acquire] never returns [false]. *)
Theorem Acquire_on_open_gate (cs : list call) (lim : nat) :
  Forall (λ c, is_Done c = false) cs →
  let rl := execs cs (RateLimiter.New lim) in
  done rl = false
  ∧ Acquire CaseDone rl = None
  ∧ ∀ pick b rl', Acquire pick rl = Some (b, rl') → b = true.
Proof.
  intros Hcs rl.
  assert (Hd : done rl = false) by by apply open_gate_execs.
  assert (HD : Acquire CaseDone rl = None).
  { simpl. unfold done_ready. by rewrite Hd. }
  split_and!; [done..|]. intros pick b rl' Ha. destruct pick.
  - congruence.
  - simpl in Ha. destruct (window_ready rl); [|done]. by inversion Ha.
Qed.

(** X5: when the embedded [Accept] fails, [listener.Accept] returns nil
    and that error and leaves the limiter as it found it, whether or not
    it had taken a slot. *)
Theorem Accept_error_restores (cs : list call) (lim : nat) pick e res rl' :
  let rl := execs cs (RateLimiter.New lim) in
  Accept pick (inr e) rl = Some (res, rl') →
  res = (None, Some e) ∧ rl' = rl.
Proof.
  intros rl. unfold Accept.
  destruct (Acquire pick rl) as [[b rl1]|] eqn:Ha; [|done].
  intros [= <- <-]. split; [done|]. destruct b.
  - destruct pick; simpl in Ha.
    + destruct (done_ready rl); by inversion Ha.
    + destruct (window_ready rl); [|done]. inversion Ha; subst.
      apply Release_send_window, WF_execs, WF_New.
  - destruct pick; simpl in Ha.
    + destruct (done_ready rl); by inversion Ha.
    + destruct (window_ready rl); by inversion Ha.
Qed.

(** ** The acceptor in use *)

Lemma open_sum cs :
  length (filter (λ cn, is_open cn = true) cs) = sum_list (weigh <$> cs).
Proof.
  induction cs as [|cn cs IH]; [done|]. rewrite filter_cons. simpl.
  unfold weigh at 1. destruct (decide (is_open cn = true)) as [H|H].
  - rewrite H. simpl. by rewrite IH.
  - apply not_true_is_false in H. by rewrite H.
Qed.

Lemma open_insert cs k cn cn' :
  cs !! k = Some cn →
  sum_list (weigh <$> <[k:=cn']> cs) + weigh cn = sum_list (weigh <$> cs) + weigh cn'.
Proof.
  revert k. induction cs as [|x cs IH]; intros [|k] Hk; simplify_eq/=.
  - lia.
  - specialize (IH _ Hk). lia.
Qed.

Lemma open_close cs k cn :
  cs !! k = Some cn → cn_once cn = false →
  sum_list (weigh <$> <[k:={| Conn := Conn cn; cn_once := true |}]> cs) + 1
  = sum_list (weigh <$> cs).
Proof.
  intros Hk Hon.
  pose proof (open_insert _ _ _ {| Conn := Conn cn; cn_once := true |} Hk) as Hi.
  assert (Hw1 : weigh cn = 1) by (unfold weigh, is_open; by rewrite Hon).
  assert (Hw0 : weigh {| Conn := Conn cn; cn_once := true |} = 0) by done.
  rewrite Hw1, Hw0 in Hi. lia.
Qed.

Lemma waiting_all (bs : list bool) :
  Forall (λ b, b = true) bs → length (filter (λ b : bool, b = true) bs) = length bs.
Proof.
  induction 1 as [|b bs Hb _ IH]; [done|].
  rewrite filter_cons_True by done. simpl. by rewrite IH.
Qed.

(** [listener.Accept] is its [Acquire] followed by what it does once the
    embedded [Accept] has returned. *)
Lemma Accept_two_steps pick under rl :
  Accept pick under rl
  = match Acquire pick rl with
    | None => None
    | Some (acquiredLock, rl1) => Some (Accept_return acquiredLock under rl1)
    end.
Proof.
  unfold Accept, Accept_return.
  destruct (Acquire pick rl) as [[b rl1]|]; [|done]. by destruct under.
Qed.

(** A whole [listener.Accept] is the two steps of the call that joins
    the waiting calls last. *)
Lemma Accept_steps pick under s cn e rl :
  Accept pick under (limiter s) = Some ((cn, e), rl) →
  ∃ s1, sys_step (DoAccept pick) s = Some s1
        ∧ sys_step (DoAccepted (length (accepting s)) under) s1
          = Some {| limiter := rl; accepting := accepting s;
                    conns := conns s ++ option_list cn |}.
Proof.
  rewrite Accept_two_steps. simpl.
  destruct (Acquire pick (limiter s)) as [[b rl1]|]; [|done].
  intros Hret. eexists. split; [done|]. simpl.
  rewrite list_lookup_middle by done. inversion Hret as [Hret'].
  rewrite Hret'. f_equal. f_equal.
  rewrite delete_middle. apply app_nil_r.
Qed.

Lemma SysInv_start lim : SysInv lim (start lim).
Proof. constructor; simpl; try done. apply WF_New. Qed.

Lemma SysInv_step lim o s s' :
  is_shutdown o = false → SysInv lim s → sys_step o s = Some s' → SysInv lim s'.
Proof.
  intros Ho HI. pose proof HI as [HW Hl Hg Hr Hacc Hop].
  unfold waiting in Hop. rewrite (waiting_all _ Hacc) in Hop.
  destruct o as [pick|k under|k under|under]; simpl in *; [| | |done].
  - destruct pick; simpl.
    { unfold done_ready. by rewrite Hg. }
    destruct (window_ready (limiter s)) eqn:Hrdy; [|done].
    pose proof (WF_send_window _ HW Hrdy) as HW1. intros [= <-].
    unfold window_ready in Hrdy. rewrite Hr in Hrdy.
    unfold send_window in *. rewrite Hr in *.
    assert (Hacc' : Forall (λ b, b = true) (accepting s ++ [true])).
    { apply Forall_app. split; [done|]. by repeat constructor. }
    constructor; simpl; try done.
    unfold waiting, open in *. simpl. rewrite (waiting_all _ Hacc').
    rewrite length_app. simpl. lia.
  - destruct (accepting s !! k) as [b|] eqn:Hk; [|done].
    assert (b = true) as ->.
    { rewrite Forall_forall in Hacc. apply Hacc.
      by eapply list_elem_of_lookup_2. }
    assert (Hacc' : Forall (λ b, b = true) (delete k (accepting s)))
      by by apply Forall_delete.
    assert (Hlen : length (delete k (accepting s)) + 1 = length (accepting s)).
    { rewrite length_delete by eauto.
      apply lookup_lt_Some in Hk. lia. }
    destruct under as [c|e]; simpl; intros [= <-].
    + constructor; simpl; try done.
      unfold waiting, open in *. simpl. rewrite (waiting_all _ Hacc').
      rewrite filter_app, length_app. simpl. lia.
    + constructor; simpl.
      * by apply WF_Release.
      * unfold Release. by destruct (window (limiter s)).
      * unfold Release. by destruct (window (limiter s)).
      * unfold Release. destruct (window (limiter s)); [lia|done].
      * done.
      * unfold waiting, open in *. simpl. rewrite (waiting_all _ Hacc').
        rewrite app_nil_r. unfold Release.
        destruct (window (limiter s)); simpl; lia.
  - destruct (conns s !! k) as [cn|] eqn:Hk; [|done].
    unfold conn_Close. destruct (cn_once cn) eqn:Hon; intros [= <-].
    + rewrite list_insert_id by done. by destruct s.
    + pose proof (open_close _ _ _ Hk Hon) as Hc.
      unfold open in Hop. rewrite open_sum in Hop.
      constructor; simpl.
      * by apply WF_Release.
      * unfold Release. by destruct (window (limiter s)).
      * unfold Release. by destruct (window (limiter s)).
      * unfold Release. destruct (window (limiter s)); [lia|done].
      * done.
      * unfold waiting, open. simpl. rewrite (waiting_all _ Hacc), open_sum.
        unfold Release. destruct (window (limiter s)); simpl; lia.
Qed.

Lemma SysInv_run lim os s s' :
  Forall (λ o, is_shutdown o = false) os →
  SysInv lim s → sys_run os s = Some s' → SysInv lim s'.
Proof.
  intros Hos. revert s. induction Hos as [|o os Ho _ IH]; intros s HI; simpl.
  - by intros [= <-].
  - destruct (sys_step o s) as [s1|] eqn:H1; [|done].
    apply IH. by eapply SysInv_step.
Qed.

Lemma New_Limited lim rl0 :
  Admission.New None lim = inl (Limited rl0) →
  0 < lim ∧ {| limiter := rl0; accepting := []; conns := [] |} = start lim.
Proof.
  unfold Admission.New. case_bool_decide; [done|]. intros [= <-].
  split; [lia|done].
Qed.

(** After a step that gave a slot back, [Acquire] gets through. *)
Lemma SysInv_room lim s :
  SysInv lim s → open s + waiting s < lim →
  is_Some (sys_step (DoAccept CaseWindow) s).
Proof.
  intros [HW Hl Hg Hr Hacc Hop] Hlt. simpl. unfold window_ready.
  rewrite Hl, (bool_decide_eq_true_2 (_ < lim)) by lia.
  rewrite orb_true_r. eauto.
Qed.

Lemma SysInv_full lim s :
  SysInv lim s → open s + waiting s = lim →
  ∀ pick, sys_step (DoAccept pick) s = None.
Proof.
  intros [HW Hl Hg Hr Hacc Hop] Hfull pick. simpl. destruct pick; simpl.
  - unfold done_ready. by rewrite Hg.
  - unfold window_ready. rewrite Hr, Hl.
    rewrite !bool_decide_eq_false_2 by lia. done.
Qed.

(** X6: for a listener made by [listener.New] with a limit above zero, as
    long as the listener is not closed, every [Accept] call that waits in
    the embedded [Accept] has taken a slot, and the tokens in the limiter
    are as many as the connections accepted and not yet closed together
    with those waiting calls; so the two together, hence the open
    connections, are never more than the limit. *)
Theorem open_connections_bounded lim rl0 (os : list op) s :
  Admission.New None lim = inl (Limited rl0) →
  Forall (λ o, is_shutdown o = false) os →
  sys_run os {| limiter := rl0; accepting := []; conns := [] |} = Some s →
  waiting s = length (accepting s)
  ∧ open s + waiting s = window (limiter s)
  ∧ open s + waiting s ≤ lim
  ∧ open s ≤ lim
  ∧ held (limiter s) = Z.of_nat (open s + waiting s).
Proof.
  intros [Hpos ->]%New_Limited Hos Hrun.
  pose proof (SysInv_run lim _ _ _ Hos (SysInv_start lim) Hrun)
    as [HW Hl Hg Hr Hacc Hop].
  destruct HW as [Hw _ _]. unfold held. rewrite Hr, Hop.
  split_and!; [by apply waiting_all|done|lia|lia|lia].
Qed.

(** X7: for such a listener, [Accept] blocks in [Acquire] exactly when
    the open connections and the [Accept] calls waiting in the embedded
    [Accept] are [lim] together; closing an open connection takes the
    open connections down by one and lets the next [Accept] past
    [Acquire], and so does the failure of the embedded [Accept] of a
    waiting call, which takes the waiting calls down by one. *)
Theorem Accept_blocks_when_full lim rl0 (os : list op) s :
  Admission.New None lim = inl (Limited rl0) →
  Forall (λ o, is_shutdown o = false) os →
  sys_run os {| limiter := rl0; accepting := []; conns := [] |} = Some s →
  ((∀ pick, sys_step (DoAccept pick) s = None) ↔ open s + waiting s = lim)
  ∧ (∀ k cn u s',
       conns s !! k = Some cn → is_open cn = true →
       sys_step (DoClose k u) s = Some s' →
       open s' + 1 = open s ∧ waiting s' = waiting s
       ∧ is_Some (sys_step (DoAccept CaseWindow) s'))
  ∧ (∀ k e s',
       sys_step (DoAccepted k (inr e)) s = Some s' →
       open s' = open s ∧ waiting s' + 1 = waiting s
       ∧ is_Some (sys_step (DoAccept CaseWindow) s')).
Proof.
  intros [Hpos ->]%New_Limited Hos Hrun.
  pose proof (SysInv_run lim _ _ _ Hos (SysInv_start lim) Hrun) as HI.
  assert (Hle : open s + waiting s ≤ lim).
  { destruct HI as [[Hw _ _] Hl Hg Hr Hacc Hop]. lia. }
  split_and!.
  - split; [|by apply SysInv_full].
    intros Hb. destruct (decide (open s + waiting s < lim)) as [Hlt|]; [|lia].
    destruct (SysInv_room _ _ HI Hlt) as [x Hx]. by rewrite Hb in Hx.
  - intros k cn u s' Hk Hopen Hstep.
    assert (HI' : SysInv lim s') by (by eapply (SysInv_step lim (DoClose k u))).
    assert (Hdec : open s' + 1 = open s ∧ waiting s' = waiting s).
    { simpl in Hstep. rewrite Hk in Hstep. unfold conn_Close in Hstep.
      unfold is_open in Hopen. apply negb_true_iff in Hopen.
      rewrite Hopen in Hstep. inversion Hstep; subst. unfold open. simpl.
      rewrite !open_sum. split; [by apply open_close|done]. }
    split_and!; [tauto..|]. apply (SysInv_room lim); [done|lia].
  - intros k e s' Hstep.
    assert (HI' : SysInv lim s')
      by (by eapply (SysInv_step lim (DoAccepted k (inr e)))).
    assert (Hdec : open s' = open s ∧ waiting s' + 1 = waiting s).
    { pose proof (sys_accepting _ _ HI) as Hacc.
      simpl in Hstep. destruct (accepting s !! k) as [b|] eqn:Hk; [|done].
      inversion Hstep; subst. unfold open, waiting. simpl.
      rewrite app_nil_r. split; [done|].
      rewrite (waiting_all _ Hacc), (waiting_all _ (Forall_delete _ _ k Hacc)).
      rewrite length_delete by eauto. apply lookup_lt_Some in Hk. lia. }
    split_and!; [tauto..|]. apply (SysInv_room lim); [done|lia].
Qed.

(** ** The facts on concrete runs *)

Lemma Acquire_then_Release_witness :
  Acquire CaseWindow (execs [CallAcquire CaseWindow] (RateLimiter.New 2))
  = Some (true, send_window (execs [CallAcquire CaseWindow] (RateLimiter.New 2)))
  ∧ Release (send_window (execs [CallAcquire CaseWindow] (RateLimiter.New 2)))
    = execs [CallAcquire CaseWindow] (RateLimiter.New 2).
Proof.
  split; [reflexivity|].
  exact (proj1 (Acquire_then_Release [CallAcquire CaseWindow] 2 CaseWindow _
                  eq_refl)).
Defined.

Lemma Acquire_on_open_gate_witness :
  Forall (λ c, is_Done c = false) full
  ∧ done (execs full (RateLimiter.New 2)) = false
  ∧ Acquire CaseDone (execs full (RateLimiter.New 2)) = None.
Proof.
  assert (H : Forall (λ c, is_Done c = false) full) by by repeat constructor.
  split; [exact H|].
  pose proof (Acquire_on_open_gate full 2 H) as (Hd & Hn & _).
  split; [exact Hd|exact Hn].
Defined.

Lemma Accept_error_restores_witness :
  Accept CaseWindow (inr (Err "too many open files"))
    (execs [CallAcquire CaseWindow] (RateLimiter.New 2))
  = Some ((None, Some (Err "too many open files")),
          Release (send_window
                     (execs [CallAcquire CaseWindow] (RateLimiter.New 2))))
  ∧ Release (send_window (execs [CallAcquire CaseWindow] (RateLimiter.New 2)))
    = execs [CallAcquire CaseWindow] (RateLimiter.New 2).
Proof.
  split; [reflexivity|].
  exact (proj2 (Accept_error_restores [CallAcquire CaseWindow] 2 CaseWindow
                  (Err "too many open files") _ _ eq_refl)).
Defined.

Lemma open_connections_bounded_witness :
  sys_run busy {| limiter := RateLimiter.New 2; accepting := []; conns := [] |}
  = Some end_busy
  ∧ open end_busy = 1
  ∧ waiting end_busy = 1
  ∧ open end_busy + waiting end_busy = window (limiter end_busy)
  ∧ open end_busy + waiting end_busy ≤ 2.
Proof.
  assert (Hrun : sys_run busy {| limiter := RateLimiter.New 2;
                                 accepting := []; conns := [] |}
                 = Some end_busy) by reflexivity.
  assert (Hos : Forall (λ o, is_shutdown o = false) busy)
    by by repeat constructor.
  pose proof (open_connections_bounded 2 (RateLimiter.New 2) busy end_busy
                eq_refl Hos Hrun) as (_ & H1 & H2 & _).
  split_and!; [exact Hrun|reflexivity|reflexivity|exact H1|exact H2].
Defined.

Lemma Accept_blocks_when_full_witness :
  sys_run busy {| limiter := RateLimiter.New 2; accepting := []; conns := [] |}
  = Some end_busy
  ∧ open end_busy = 1
  ∧ waiting end_busy = 1
  ∧ ∀ pick, sys_step (DoAccept pick) end_busy = None.
Proof.
  assert (Hrun : sys_run busy {| limiter := RateLimiter.New 2;
                                 accepting := []; conns := [] |}
                 = Some end_busy) by reflexivity.
  assert (Hos : Forall (λ o, is_shutdown o = false) busy)
    by by repeat constructor.
  pose proof (Accept_blocks_when_full 2 (RateLimiter.New 2) busy end_busy
                eq_refl Hos Hrun) as [Hiff _].
  split_and!; [exact Hrun|reflexivity|reflexivity|]. apply Hiff. reflexivity.
Defined.

End AdmissionFacts.

(* ===================================================================== *)
(** * Properties of the dispatcher's bookkeeping *)
(* ===================================================================== *)

Module DispatchFacts.
Import Crawler Dispatch CrawlerFacts.

Lemma in_progress_insert ws i w w' :
  ws !! i = Some w →
  holds_url w' ++ in_progress ws ≡ₚ holds_url w ++ in_progress (<[i:=w']> ws).
Proof.
  intros Hi. destruct (bind_insert holds_url ws i w w' Hi) as (rest & H1 & H2).
  unfold in_progress. rewrite H1, H2. solve_Permutation.
Qed.

Lemma in_progress_replicate n : in_progress (replicate n AtSelect) = [].
Proof. induction n as [|n IH]; [done|]. exact IH. Qed.

Lemma all_exited_in_progress ws : all_exited ws = true → in_progress ws = [].
Proof.
  induction ws as [|w ws IH]; [done|]. simpl.
  intros [Hw Hws]%andb_prop. apply bool_decide_eq_true in Hw as ->.
  by apply IH.
Qed.

Lemma all_exited_elem ws w : all_exited ws = true → w ∈ ws → w = Exited.
Proof.
  induction ws as [|x ws IH]; simpl; [by intros _ ?%elem_of_nil|].
  intros [Hx Hws]%andb_prop [->|Hin]%elem_of_cons.
  - by apply bool_decide_eq_true in Hx.
  - by apply IH.
Qed.

Section WithLib.
Context (L : Lib).

(** ** [crawl] *)

Lemma crawl_finish_url url resp : SourceURL (crawl_finish L url resp) = url.
Proof.
  unfold crawl_finish. destruct resp as [r|e]; [|done].
  case_bool_decide; [done|]. destruct (Body r); [|done].
  destruct (Unmarshal L s); [done|]. by destruct (Compact L s).
Qed.

Lemma crawl_finish_failed url resp :
  failed (crawl_finish L url resp) = negb (answers_well L resp).
Proof.
  unfold crawl_finish, answers_well. destruct resp as [r|e]; [|done].
  case_bool_decide as Hs.
  - by rewrite bool_decide_eq_false_2.
  - rewrite bool_decide_eq_true_2 by done. simpl.
    destruct (Body r); [|done]. destruct (Unmarshal L s); [done|].
    by destruct (Compact L s).
Qed.

Lemma crawl_finish_status url resp :
  failed (crawl_finish L url resp) = false →
  StatusCode (crawl_finish L url resp) = StatusOK.
Proof.
  unfold crawl_finish. destruct resp as [r|e]; [|done].
  case_bool_decide as Hs; [done|].
  destruct (Body r); [|done]. destruct (Unmarshal L s); [done|].
  by destruct (Compact L s).
Qed.

Lemma crawl_finish_blank url resp :
  failed (crawl_finish L url resp) = true →
  StatusCode (crawl_finish L url resp) = 0%Z
  ∧ ResponseBody (crawl_finish L url resp) = EmptyString.
Proof.
  unfold crawl_finish. destruct resp as [r|e]; [|done].
  case_bool_decide as Hs; [done|].
  destruct (Body r); [|done]. destruct (Unmarshal L s); [done|].
  by destruct (Compact L s).
Qed.

Lemma crawl_enter_inl c url r :
  crawl_enter L c url = inl r →
  SourceURL r = url ∧ failed r = true ∧ StatusCode r = 0%Z.
Proof.
  unfold crawl_enter. destruct c; [by intros [= <-]|].
  destruct (NewRequest L url); [by intros [= <-]|done].
Qed.

(** X8: the result of [crawl] carries the URL it was given; it has no
    error exactly when the context is live, the request can be built and
    the answer is a 200 whose body can be read, parses and compacts;
    without an error its status is 200; with an error its status is 0 and
    its body empty. *)
Theorem crawl_result c url resp :
  let r := crawl L c url resp in
  SourceURL r = url
  ∧ (err r = None ↔
       c = None ∧ NewRequest L url = None ∧ answers_well L resp = true)
  ∧ (err r = None → StatusCode r = StatusOK)
  ∧ (is_Some (err r) → StatusCode r = 0%Z ∧ ResponseBody r = EmptyString).
Proof.
  intros r. unfold r, crawl.
  destruct (crawl_enter L c url) as [r0|[]] eqn:He.
  - pose proof (crawl_enter_inl _ _ _ He) as (Hu & Hf & Hs).
    pose proof Hf as [e0 He0]%failed_err.
    split_and!; [done| |congruence|].
    + split; [congruence|]. intros (-> & Hn & _). unfold crawl_enter in He.
      by rewrite Hn in He.
    + intros _. split; [done|]. unfold crawl_enter in He.
      destruct c; [by inversion He|].
      destruct (NewRequest L url); by inversion He.
  - assert (c = None ∧ NewRequest L url = None) as [-> Hn].
    { unfold crawl_enter in He. destruct c; [done|].
      by destruct (NewRequest L url). }
    pose proof (crawl_finish_failed url resp) as Hf.
    split_and!.
    + apply crawl_finish_url.
    + rewrite <-not_failed_err, Hf, negb_false_iff. tauto.
    + intros ?%not_failed_err. by apply crawl_finish_status.
    + intros [e0 He0]. apply crawl_finish_blank, failed_err. eauto.
Qed.

(** ** The books of a call *)

Lemma Books_produce urls i url w r s :
  workers s !! i = Some w → holds_url w = [url] →
  SourceURL r = url → (failed r = false → StatusCode r = StatusOK) →
  Books urls s → Books urls (produce i r s).
Proof.
  intros Hi Hw Hu Hst [Hb Hs]. constructor; simpl.
  - pose proof (in_progress_insert _ _ _ (Sending r) Hi) as Hperm.
    rewrite Hw in Hperm. simpl in Hperm.
    rewrite <-Hb, Hperm, fmap_app. simpl. rewrite Hu. solve_Permutation.
  - apply Forall_app. split; [done|]. by repeat constructor.
Qed.

Lemma Books_set_worker urls i w w' s :
  workers s !! i = Some w → holds_url w = holds_url w' →
  Books urls s → Books urls (set_worker i w' s).
Proof.
  intros Hi Hw [Hb Hs]. constructor; simpl; try done.
  pose proof (in_progress_insert _ _ _ w' Hi) as Hperm. rewrite Hw in Hperm.
  apply Permutation_app_inv_l in Hperm. by rewrite <-Hperm.
Qed.

Lemma Books_step urls ev s s' :
  Books urls s → step L ev s = Some s' → Books urls s'.
Proof.
  intros HB. unfold step.
  destruct (returned s) as [p|] eqn:Hret; [done|].
  destruct ev as [reason|i|i|i|i resp|i|]; simpl.
  - destruct (parent s); [done|]. intros [= <-].
    destruct HB as [Hb Hs]. by constructor.
  - destruct (workers s !! i) as [[]|] eqn:Hi; try done.
    destruct (ctx s); [|done]. intros [= <-].
    by eapply Books_set_worker.
  - destruct (workers s !! i) as [[]|] eqn:Hi; try done.
    destruct (tasks s) as [|url rest] eqn:Ht; intros [= <-].
    + by eapply Books_set_worker.
    + destruct HB as [Hb Hs]. constructor; simpl; try done.
      pose proof (in_progress_insert _ _ _ (InCrawl url) Hi) as Hperm.
      simpl in Hperm. rewrite <-Hb, Ht, <-Hperm. solve_Permutation.
  - destruct (workers s !! i) as [[]|] eqn:Hi; try done.
    destruct (crawl_enter L (ctx s) url) as [r|[]] eqn:Hc; intros [= <-].
    + destruct (crawl_enter_inl _ _ _ Hc) as (Hu & Hf & _).
      eapply Books_produce; eauto. congruence.
    + by eapply Books_set_worker.
  - destruct (workers s !! i) as [[]|] eqn:Hi; try done.
    intros [= <-]. eapply Books_produce; eauto.
    + apply crawl_finish_url.
    + apply crawl_finish_status.
  - destruct (workers s !! i) as [[]|] eqn:Hi; try done.
    intros [= <-].
    pose proof (in_progress_insert _ _ _ AtSelect Hi) as Hperm.
    simpl in Hperm. destruct HB as [Hb Hs]. unfold collect.
    destruct (exitErr s) as [e|] eqn:Hx; [|destruct (err r) as [e|]];
      constructor; simpl; rewrite <-?Hperm; done.
  - destruct (all_exited (workers s)); [|done]. intros [= <-].
    destruct HB as [Hb Hs]. by constructor.
Qed.

Lemma Books_Crawl cfg c urls :
  returned (Crawl L cfg c urls) = None → Books urls (Crawl L cfg c urls).
Proof.
  destruct (Crawl_cases L cfg c urls) as [(res & e & -> & _)|(_ & _ & _ & ->)];
    [done|]. intros _. constructor; simpl; try done.
  by rewrite in_progress_replicate.
Qed.

Lemma Books_run cfg c urls sched s :
  returned (Crawl L cfg c urls) = None →
  run L sched (Crawl L cfg c urls) = Some s → Books urls s.
Proof.
  intros Hret Hrun. eapply (run_ind L); [| |exact Hrun].
  - intros ev s1 s2. apply Books_step.
  - by apply Books_Crawl.
Qed.

(** What [Crawl] returns when it returns before launching workers. *)
Lemma Crawl_early cfg c urls :
  is_Some (returned (Crawl L cfg c urls)) →
  ∃ e, Crawl L cfg c urls = giveBack None e c
       ∧ (e = None ↔ c = None ∧ urls = []).
Proof.
  unfold Crawl. destruct c as [e0|].
  { intros _. exists (Some e0). split; [done|]. split; [done|]. by intros [? _]. }
  destruct urls as [|u urls].
  { intros _. by exists None. }
  destruct (enqueue L (u :: urls)) as [q [e|]]; simpl.
  - intros _. exists (Some e). split; [done|]. split; [done|]. by intros [_ ?].
  - by intros [? ?].
Qed.

Lemma run_early cfg c urls sched s :
  is_Some (returned (Crawl L cfg c urls)) →
  run L sched (Crawl L cfg c urls) = Some s → s = Crawl L cfg c urls.
Proof. apply run_returned. Qed.

(** X9: in every run of [Crawl] the URLs of the results produced are URLs
    of the list, each at most as often as the list has it, so that there
    are never more results than URLs; when the workers were launched,
    every URL of the list is at every moment a result, or with a worker,
    or still in the queue. *)
Theorem every_url_accounted_for cfg c urls sched s :
  run L sched (Crawl L cfg c urls) = Some s →
  SourceURL <$> fetched s ⊆+ urls
  ∧ length (fetched s) ≤ length urls
  ∧ (returned (Crawl L cfg c urls) = None →
     (SourceURL <$> fetched s) ++ in_progress (workers s) ++ tasks s ≡ₚ urls).
Proof.
  intros Hrun.
  assert (Hsub : SourceURL <$> fetched s ⊆+ urls).
  { destruct (returned (Crawl L cfg c urls)) as [p|] eqn:Hret.
    - apply run_early in Hrun; [|by rewrite Hret]. subst.
      rewrite fetched_Crawl. apply submseteq_nil_l.
    - pose proof (books_urls _ _ (Books_run _ _ _ _ _ Hret Hrun)) as <-.
      by apply submseteq_inserts_r. }
  split_and!; [done| |].
  - apply submseteq_length in Hsub. by rewrite length_fmap in Hsub.
  - intros Hret. exact (books_urls _ _ (Books_run _ _ _ _ _ Hret Hrun)).
Qed.

Lemma in_flight_insert ws i w w' :
  ws !! i = Some w →
  length (filter (λ w, is_in_flight w = true) (<[i:=w']> ws))
  + (if is_in_flight w then 1 else 0)
  = length (filter (λ w, is_in_flight w = true) ws)
    + (if is_in_flight w' then 1 else 0).
Proof.
  revert i. induction ws as [|x ws IH]; intros [|i] Hi; simplify_eq/=.
  - rewrite !filter_cons.
    destruct (decide (is_in_flight w' = true)) as [H1|H1%not_true_is_false];
      destruct (decide (is_in_flight w = true)) as [H2|H2%not_true_is_false];
      rewrite H1, H2; simpl; lia.
  - specialize (IH _ Hi). rewrite !filter_cons.
    destruct (decide (is_in_flight x = true)); simpl; lia.
Qed.

(** Once the derived context is done it stays done, and no request is
    added to those in flight. *)
Lemma ctx_done_step reason n ev s s' :
  ctx s = Some reason → in_flight s ≤ n → step L ev s = Some s' →
  ctx s' = Some reason ∧ in_flight s' ≤ n.
Proof.
  intros Hctx Hn. unfold step, in_flight in *.
  destruct (returned s) as [p|] eqn:Hret; [done|].
  destruct ev as [reason'|i|i|i|i resp|i|]; simpl.
  - destruct (parent s); [done|]. intros [= <-]. simpl. by rewrite Hctx.
  - destruct (workers s !! i) as [[]|] eqn:Hi; try done.
    rewrite Hctx. intros [= <-]. simpl.
    pose proof (in_flight_insert _ _ _ Exited Hi). simpl in *.
    split; [done|lia].
  - destruct (workers s !! i) as [[]|] eqn:Hi; try done.
    destruct (tasks s) as [|url rest]; intros [= <-]; simpl.
    + pose proof (in_flight_insert _ _ _ Exited Hi). simpl in *.
      split; [done|lia].
    + pose proof (in_flight_insert _ _ _ (InCrawl url) Hi). simpl in *.
      split; [done|lia].
  - destruct (workers s !! i) as [[]|] eqn:Hi; try done.
    rewrite Hctx. simpl. intros [= <-]. simpl.
    pose proof (in_flight_insert _ _ _
                  (Sending (fail url (Wrap "exit on context done" reason))) Hi).
    simpl in *. split; [done|lia].
  - destruct (workers s !! i) as [[]|] eqn:Hi; try done.
    intros [= <-]. simpl.
    pose proof (in_flight_insert _ _ _ (Sending (crawl_finish L url resp)) Hi).
    simpl in *. split; [done|lia].
  - destruct (workers s !! i) as [[]|] eqn:Hi; try done.
    intros [= <-].
    pose proof (in_flight_insert _ _ _ AtSelect Hi). simpl in *.
    unfold collect. destruct (exitErr s); [|destruct (err r)]; simpl;
      rewrite ?Hctx; simpl; (split; [done|lia]).
  - destruct (all_exited (workers s)); [|done]. intros [= <-]. simpl.
    by rewrite Hctx.
Qed.

(** X10: once the context derived in [Crawl] is done, because [cancel()]
    has run or the caller's context has ended, it stays done, with the
    same error, for the rest of the call; from then on no worker passes
    the context check of [crawl]: the requests in flight only get fewer,
    a worker that enters [crawl] returns the [exit on context done]
    failure without building or sending a request, and a worker at its
    [select] may leave. *)
Theorem no_request_after_cancel s reason sched s' :
  ctx s = Some reason → run L sched s = Some s' →
  ctx s' = Some reason
  ∧ in_flight s' ≤ in_flight s
  ∧ (returned s' = None →
     (∀ i url, workers s' !! i = Some (InCrawl url) →
        step L (Enter i) s'
        = Some (produce i (fail url (Wrap "exit on context done" reason)) s'))
     ∧ (∀ i, workers s' !! i = Some AtSelect →
          step L (Stop i) s' = Some (set_worker i Exited s'))).
Proof.
  intros Hctx Hrun.
  assert (Hinv : ctx s' = Some reason ∧ in_flight s' ≤ in_flight s).
  { eapply (run_ind L (λ x, ctx x = Some reason ∧ in_flight x ≤ in_flight s));
      [| |exact Hrun].
    - intros ev s1 s2 [H1 H2]. by apply ctx_done_step.
    - done. }
  destruct Hinv as [Hctx' Hle]. split_and!; [done..|].
  intros Hret. split.
  - intros i url Hi. unfold step. by rewrite Hret, Hi, Hctx'.
  - intros i Hi. unfold step. by rewrite Hret, Hi, Hctx'.
Qed.

(** X11: when [Crawl] returns a result list and no error, the list is, up
    to order, every result the workers produced; each has no error and
    status 200, and their URLs are URLs of the input, each at most as
    often as the input has it. *)
Theorem returned_results cfg c urls sched s rs :
  run L sched (Crawl L cfg c urls) = Some s →
  returned s = Some (Some rs, None) →
  rs ≡ₚ fetched s
  ∧ Forall (λ r, err r = None ∧ StatusCode r = StatusOK) rs
  ∧ SourceURL <$> rs ⊆+ urls.
Proof.
  intros Hrun Hret.
  destruct (Inv_run L _ _ _ _ _ Hrun) as [[-> _]|HI].
  { destruct (Crawl_early cfg c urls) as (e & Heq & _); [by rewrite Hret|].
    rewrite Heq in Hret. done. }
  destruct (returned_seen L _ _ HI Hret) as [Hperm Hv].
  unfold verdict in Hv. destruct (exitErr s) as [e|] eqn:Hx; [done|].
  inversion Hv; subst rs.
  pose proof (inv_exitErr _ _ HI) as He. rewrite Hx in He.
  assert (Hok : Forall (λ r, failed r = false) (seen s)).
  { apply first_failed_None. destruct (first_failed (seen s)) as [r0|] eqn:Hff;
      [|done]. apply first_failed_Some, failed_err in Hff as [e0 He0].
    simpl in He. unfold wrapped in He. rewrite He0 in He. done. }
  rewrite (inv_out _ _ HI Hx).
  assert (Hret0 : returned (Crawl L cfg c urls) = None).
  { destruct (returned (Crawl L cfg c urls)) as [p|] eqn:Hr0; [|done].
    pose proof Hrun as Heq. apply run_early in Heq; [|by rewrite Hr0]. subst s.
    destruct (Crawl_early cfg c urls) as (e & Heq & _); [by rewrite Hr0|].
    rewrite Heq in Hret. done. }
  pose proof (Books_run _ _ _ _ _ Hret0 Hrun) as [Hb Hs].
  split_and!.
  - done.
  - rewrite Hperm in Hs. rewrite Forall_forall in Hok, Hs.
    apply Forall_forall. intros r Hr. split.
    + by apply not_failed_err, Hok.
    + apply Hs; [done|]. by apply Hok.
  - rewrite <-Hperm, <-Hb. by apply submseteq_inserts_r.
Qed.

(** X12: [Crawl] returns results or an error, never both: with an error
    the results are nil; without an error, for a non-empty list, the
    results are not nil; called with a context that is done it returns
    nil and that context's error. *)
Theorem results_or_error cfg c urls sched s res e :
  run L sched (Crawl L cfg c urls) = Some s →
  returned s = Some (res, e) →
  (is_Some e → res = None)
  ∧ (e = None → urls ≠ [] → is_Some res)
  ∧ (is_Some c → res = None ∧ e = c).
Proof.
  intros Hrun Hret.
  destruct (returned (Crawl L cfg c urls)) as [p|] eqn:Hret0.
  - pose proof Hrun as Heq. apply run_early in Heq; [|by rewrite Hret0].
    subst s. destruct (Crawl_early cfg c urls) as (e' & Heq & Hiff);
      [by rewrite Hret0|].
    rewrite Heq in Hret. simpl in Hret. inversion Hret; subst.
    split_and!; [done| |].
    + intros He Hne. apply Hiff in He as [_ ?]. done.
    + intros [e0 ->]. split; [done|]. unfold Crawl in Heq. by inversion Heq.
  - assert (Hc : c = None).
    { destruct (Crawl_cases L cfg c urls)
        as [(r0 & e0 & Heq & _)|(Hc & _)]; [|done].
      by rewrite Heq in Hret0. }
    destruct (Inv_run L _ _ _ _ _ Hrun) as [[-> [? Hr]]|HI]; [congruence|].
    destruct (inv_returned _ _ HI _ Hret) as [_ Hv]. unfold verdict in Hv.
    subst c. destruct (exitErr s); inversion Hv; subst; split_and!;
      try done; eauto; by intros [? ?].
Qed.

(** ** Calls that nobody cancels and whose requests are answered well *)

Lemma in_progress_lookup ws i w u :
  ws !! i = Some w → holds_url w = [u] → u ∈ in_progress ws.
Proof.
  intros Hi Hw. unfold in_progress. apply list_elem_of_bind. exists w.
  split; [rewrite Hw; apply list_elem_of_singleton; done|].
  by eapply list_elem_of_lookup_2.
Qed.

Lemma sending_lookup ws i r : ws !! i = Some (Sending r) → r ∈ sending ws.
Proof.
  intros Hi. unfold sending. apply list_elem_of_bind. exists (Sending r).
  split; [by apply list_elem_of_singleton|]. by eapply list_elem_of_lookup_2.
Qed.

Lemma Calm_exited_insert (ws : list worker) (i : nat) w (ts : list string) :
  w ≠ Exited → (Exited ∈ ws → ts = []) → Exited ∈ <[i:=w]> ws → ts = [].
Proof. intros Hw Hts [?|?]%elem_of_insert_inv; [congruence|auto]. Qed.

Lemma Calm_step urls ev s s' :
  Forall (λ u, NewRequest L u = None) urls →
  Books urls s → Inv L s → Calm s → benign L ev = true →
  step L ev s = Some s' → Calm s'.
Proof.
  intros Hurls HB HI HC Hev. pose proof HC as [Hp Hc Hx Hf Hex]. unfold step.
  destruct (returned s) as [p|] eqn:Hret; [done|]. specialize (Hc eq_refl).
  destruct ev as [reason|i|i|i|i resp|i|]; simpl in *; [done|..].
  - destruct (workers s !! i) as [[]|] eqn:Hi; try done. by rewrite Hc.
  - destruct (workers s !! i) as [[]|] eqn:Hi; try done.
    destruct (tasks s) as [|url rest] eqn:Ht; intros [= <-];
      constructor; simpl; rewrite ?Ht; try done.
    intros [?|Hin]%elem_of_insert_inv; [done|]. by specialize (Hex Hin).
  - destruct (workers s !! i) as [[]|] eqn:Hi; try done.
    assert (Hreq : NewRequest L url = None).
    { rewrite Forall_forall in Hurls. apply Hurls.
      rewrite <-(books_urls _ _ HB). apply elem_of_app. right.
      apply elem_of_app. left. by eapply in_progress_lookup. }
    unfold crawl_enter. rewrite Hc, Hreq. intros [= <-].
    constructor; simpl; try done. by apply Calm_exited_insert.
  - destruct (workers s !! i) as [[]|] eqn:Hi; try done. intros [= <-].
    constructor; simpl; try done.
    + apply Forall_app. split; [done|]. repeat constructor.
      by rewrite crawl_finish_failed, Hev.
    + by apply Calm_exited_insert.
  - destruct (workers s !! i) as [[]|] eqn:Hi; try done. intros [= <-].
    assert (Hr : err r = None).
    { apply not_failed_err. rewrite Forall_forall in Hf. apply Hf.
      rewrite (inv_fetched _ _ HI). apply elem_of_app. right.
      by eapply sending_lookup. }
    unfold collect. rewrite Hx, Hr. constructor; simpl; try done.
    by apply Calm_exited_insert.
  - destruct (all_exited (workers s)); [|done]. intros [= <-].
    by constructor.
Qed.

Lemma Calm_run urls sched s0 s :
  Forall (λ u, NewRequest L u = None) urls →
  Forall (λ ev, benign L ev = true) sched →
  Books urls s0 → Inv L s0 → Calm s0 →
  run L sched s0 = Some s → Books urls s ∧ Inv L s ∧ Calm s.
Proof.
  intros Hurls Hsched. revert s0.
  induction Hsched as [|ev sched Hev _ IH]; intros s0 HB HI HC; simpl.
  - by intros [= <-].
  - destruct (step L ev s0) as [s1|] eqn:H1; [|done]. apply IH.
    + by eapply Books_step.
    + by eapply Inv_step.
    + by eapply Calm_step.
Qed.

(** X13: when at least one worker is allowed, every URL passes the check
    of the validation loop and can be made a request of, the caller never
    cancels and every request is answered well, then [Crawl], however the
    workers interleave, can only return a nil error and one result for
    every URL of the list, each without an error and with status 200. *)
Theorem all_answered_well cfg urls sched s res e :
  0 < MaxConnections cfg →
  Forall (λ u, url_ok L u = true ∧ NewRequest L u = None) urls →
  Forall (λ ev, benign L ev = true) sched →
  run L sched (Crawl L cfg None urls) = Some s →
  returned s = Some (res, e) →
  e = None
  ∧ SourceURL <$> slice res ≡ₚ urls
  ∧ Forall (λ r, err r = None ∧ StatusCode r = StatusOK) (slice res).
Proof.
  intros Hmax Hurls Hsched Hrun Hret.
  destruct (Crawl_cases L cfg None urls)
    as [(r0 & e0 & Heq & Hbad)|(_ & Hne & Hok & Heq)].
  - rewrite Heq in Hrun. apply run_returned in Hrun; [|by eexists]. subst s.
    simpl in Hret. inversion Hret; subst.
    destruct urls as [|u urls].
    + unfold Crawl in Heq. by inversion Heq.
    + destruct (Hbad eq_refl) as (x & Hx & Hxb & _); [done|].
      rewrite Forall_forall in Hurls. destruct (Hurls _ Hx). congruence.
  - assert (Hr0 : returned (Crawl L cfg None urls) = None) by by rewrite Heq.
    assert (HC0 : Calm (Crawl L cfg None urls)).
    { rewrite Heq. constructor; simpl; try done.
      intros Hin. apply elem_of_replicate in Hin as [? _]. done. }
    destruct (Calm_run urls sched (Crawl L cfg None urls) s)
      as (HB & HI & HC); try done.
    { eapply Forall_impl; [exact Hurls|]. by intros u [_ ?]. }
    { by apply Books_Crawl. }
    { by apply Inv_Crawl. }
    destruct (inv_returned _ _ HI _ Hret) as [Hall Hv].
    destruct (returned_seen L _ _ HI Hret) as [Hperm _].
    unfold verdict in Hv. rewrite (calm_exitErr _ HC) in Hv.
    inversion Hv; subst. simpl.
    rewrite (inv_out _ _ HI (calm_exitErr _ HC)), <-Hperm.
    assert (Hts : tasks s = []).
    { apply (calm_exited _ HC).
      pose proof (run_workers L _ _ _ Hrun) as Hlen. rewrite Heq in Hlen.
      simpl in Hlen. rewrite length_replicate, numWorkers_min in Hlen.
      destruct (workers s) as [|w ws] eqn:Hws.
      { destruct urls; [done|]. simpl in Hlen. lia. }
      assert (w = Exited) as ->.
      { eapply all_exited_elem; [exact Hall|]. apply elem_of_cons. by left. }
      apply elem_of_cons. by left. }
    pose proof (books_urls _ _ HB) as Hb.
    rewrite Hts, (all_exited_in_progress _ Hall), !app_nil_r in Hb.
    split_and!; [done..|].
    pose proof (calm_fetched _ HC) as Hf.
    pose proof (books_status _ _ HB) as Hs.
    rewrite Forall_forall in Hf, Hs. apply Forall_forall. intros r Hr.
    split; [by apply not_failed_err, Hf|]. apply Hs; auto.
Qed.

(** X14: at no moment of a run of [Crawl] are more requests inside
    [cr.client.Do] than [MaxConnections] allows, or than there are URLs. *)
Theorem in_flight_bounded cfg c urls sched s :
  run L sched (Crawl L cfg c urls) = Some s →
  in_flight s ≤ MaxConnections cfg ∧ in_flight s ≤ length urls.
Proof.
  intros Hrun. unfold in_flight.
  pose proof (length_filter (λ w, is_in_flight w = true) (workers s)) as Hle.
  rewrite (run_workers L _ _ _ Hrun) in Hle.
  destruct (Crawl_cases L cfg c urls) as [(res & e & Heq & _)|(_ & _ & _ & Heq)];
    rewrite Heq in Hle; simpl in Hle.
  - lia.
  - rewrite length_replicate, numWorkers_min in Hle. lia.
Qed.

End WithLib.

(** ** The facts on concrete runs *)

Lemma no_request_after_cancel_witness :
  ctx end_latched = Some Canceled
  ∧ run lib0 [Stop 1] end_latched = Some (end_of lib0 [Stop 1] end_latched)
  ∧ workers (end_of lib0 [Stop 1] end_latched) !! 0
    = Some (InCrawl "http://c")
  ∧ step lib0 (Enter 0) (end_of lib0 [Stop 1] end_latched)
    = Some (produce 0 (fail "http://c"
                         (Wrap "exit on context done" Canceled))
              (end_of lib0 [Stop 1] end_latched)).
Proof.
  assert (Hrun : run lib0 [Stop 1] end_latched
                 = Some (end_of lib0 [Stop 1] end_latched)) by reflexivity.
  destruct (no_request_after_cancel lib0 end_latched Canceled [Stop 1]
              (end_of lib0 [Stop 1] end_latched) eq_refl Hrun)
    as (_ & _ & Hlater).
  split_and!; [reflexivity|exact Hrun|reflexivity|].
  exact (proj1 (Hlater eq_refl) 0 "http://c" eq_refl).
Defined.

Lemma every_url_accounted_for_witness :
  run lib0 sched_latched start_three = Some end_latched
  ∧ (SourceURL <$> fetched end_latched) ++ in_progress (workers end_latched)
    ++ tasks end_latched
    ≡ₚ ["http://a"; "http://b"; "http://c"].
Proof.
  assert (Hrun : run lib0 sched_latched start_three = Some end_latched)
    by reflexivity.
  split; [exact Hrun|].
  exact (proj2 (proj2 (every_url_accounted_for lib0 two_workers None
                         ["http://a"; "http://b"; "http://c"] sched_latched
                         end_latched Hrun)) eq_refl).
Defined.

Lemma returned_results_witness :
  run lib0 sched_five (Crawl lib0 two_workers None five_urls) = Some end_five
  ∧ returned end_five = Some (Some (out end_five), None)
  ∧ length (out end_five) = 5
  ∧ out end_five ≡ₚ fetched end_five
  ∧ SourceURL <$> out end_five ⊆+ five_urls.
Proof.
  assert (Hrun : run lib0 sched_five (Crawl lib0 two_workers None five_urls)
                 = Some end_five) by reflexivity.
  pose proof (returned_results lib0 two_workers None five_urls sched_five
                end_five (out end_five) Hrun eq_refl) as (H1 & _ & H3).
  split_and!; [exact Hrun|reflexivity|reflexivity|exact H1|exact H3].
Defined.

Lemma all_answered_well_witness :
  Forall (λ ev, benign lib0 ev = true) sched_five
  ∧ run lib0 sched_five (Crawl lib0 two_workers None five_urls) = Some end_five
  ∧ SourceURL <$> out end_five ≡ₚ five_urls.
Proof.
  assert (Hrun : run lib0 sched_five (Crawl lib0 two_workers None five_urls)
                 = Some end_five) by reflexivity.
  assert (Hb : Forall (λ ev, benign lib0 ev = true) sched_five)
    by by repeat constructor.
  assert (Hu : Forall (λ u, url_ok lib0 u = true ∧ NewRequest lib0 u = None)
                 five_urls) by by repeat constructor.
  assert (Hm : 0 < MaxConnections two_workers) by (simpl; lia).
  pose proof (all_answered_well lib0 two_workers five_urls sched_five end_five
                (Some (out end_five)) None Hm Hu Hb Hrun eq_refl)
    as (_ & H2 & _).
  split_and!; [exact Hb|exact Hrun|exact H2].
Defined.

Lemma results_or_error_witness :
  run lib0 sched_one_fails (Crawl lib0 defaultConfig None two_urls)
  = Some end_one_fails
  ∧ is_Some (returned end_one_fails)
  ∧ ∀ res e, returned end_one_fails = Some (res, e) → is_Some e → res = None.
Proof.
  assert (Hrun : run lib0 sched_one_fails
                   (Crawl lib0 defaultConfig None two_urls)
                 = Some end_one_fails) by reflexivity.
  split_and!; [exact Hrun|by eexists|].
  intros res e Hret.
  exact (proj1 (results_or_error lib0 defaultConfig None two_urls
                  sched_one_fails end_one_fails res e Hrun Hret)).
Defined.

Lemma in_flight_bounded_witness :
  run lib0 [Pull 0; Pull 1; Enter 0; Enter 1] start_three
  = Some (end_of lib0 [Pull 0; Pull 1; Enter 0; Enter 1] start_three)
  ∧ in_flight (end_of lib0 [Pull 0; Pull 1; Enter 0; Enter 1] start_three) = 2
  ∧ in_flight (end_of lib0 [Pull 0; Pull 1; Enter 0; Enter 1] start_three)
    ≤ MaxConnections two_workers.
Proof.
  assert (Hrun : run lib0 [Pull 0; Pull 1; Enter 0; Enter 1] start_three
    = Some (end_of lib0 [Pull 0; Pull 1; Enter 0; Enter 1] start_three))
    by reflexivity.
  split_and!; [exact Hrun|reflexivity|].
  exact (proj1 (in_flight_bounded lib0 two_workers None
                  ["http://a"; "http://b"; "http://c"] _ _ Hrun)).
Defined.

End DispatchFacts.

(* ===================================================================== *)
(** * Properties of the life of the process *)
(* ===================================================================== *)

Module LifecycleFacts.
Import Closer Lifecycle CloserFacts.

Lemma Fresh_without_Close tr c c' :
  FreshInv c → Forall (λ ev, is_Close ev = false) tr → run tr c = Some c' →
  FreshInv c' ∧ funcs c' = funcs c ++ registered tr.
Proof.
  intros HF Htr. revert c HF.
  induction Htr as [|ev tr Hev _ IH]; intros c HF; simpl.
  - intros [= <-]. by rewrite app_nil_r.
  - destruct HF as [Ho Hd Hg He Hr Hl].
    destruct ev as [f| |k| |]; simpl in *; [|done|by rewrite Hg|by rewrite Ho..].
    intros Hrun. apply IH in Hrun; [|by constructor]. simpl in Hrun.
    by rewrite <-(assoc_L (++)) in Hrun.
Qed.

(** X15: [Wait] returns exactly when the function of the [sync.Once] is
    over; as long as nobody has called [Close], however many hooks were
    added, [Wait] blocks, nothing has run, and [funcs] holds the hooks
    added, in order. *)
Theorem Wait_blocks_until_shutdown_is_over tr c :
  run tr New = Some c →
  (Wait c = Some () ↔ once c = Fired)
  ∧ (Forall (λ ev, is_Close ev = false) tr →
     Wait c = None ∧ once c = Fresh ∧ funcs c = registered tr ∧ ran c = []).
Proof.
  intros Hrun. split.
  - unfold Wait.
    destruct (FreshInv_run _ _ _ FreshInv_New Hrun) as [[HF _]|HI].
    + rewrite (fresh_done _ HF), (fresh_once _ HF). done.
    + rewrite (run_done _ _ HI). case_bool_decide; split; try done.
  - intros Htr.
    destruct (Fresh_without_Close _ _ _ FreshInv_New Htr Hrun) as [HF Hfs].
    unfold Wait. rewrite (fresh_done _ HF).
    split_and!; [done|apply (fresh_once _ HF)|done|apply (fresh_ran _ HF)].
Qed.

Lemma step_pending_exact ev c c' :
  internal ev = true → step ev c = Some c' → pending c' + 1 = pending c.
Proof.
  unfold pending. destruct ev as [f| |k| |]; simpl; try done; intros _.
  - destruct (goroutines c !! k) as [f|] eqn:Hk; [|done].
    case_bool_decide; [|done]. intros [= <-]. simpl.
    pose proof (lookup_lt_Some _ _ _ Hk).
    rewrite length_delete by eauto. rewrite length_app. simpl. lia.
  - destruct (once c); try done. destruct (errs c); [done|].
    case_bool_decide; [|done]. intros [= <-]. simpl. lia.
  - destruct (once c); try done.
    case_bool_decide; [done|]. intros [= <-]. simpl. lia.
Qed.

Lemma run_pending_exact tr c c' :
  Forall (λ ev, internal ev = true) tr → run tr c = Some c' →
  length tr + pending c' = pending c.
Proof.
  intros Htr. revert c. induction Htr as [|ev tr Hev _ IH]; intros c; simpl.
  - by intros [= <-].
  - destruct (step ev c) as [c1|] eqn:H1; [|done].
    intros H%IH. apply step_pending_exact in H1; [|done]. lia.
Qed.

Lemma RunInv_pending regs c :
  RunInv regs c →
  pending c ≤ 2 * length regs + 1 ∧ (done c = true → pending c = 0).
Proof.
  intros HI. pose proof HI as [Ho Hr Hc Hi Hic He Hl Hd Hf].
  apply Permutation_length in Hr. rewrite length_app in Hr. unfold pending.
  split.
  - destruct (once c); lia.
  - rewrite Hd. intros Hfd%bool_decide_eq_true.
    destruct (RunInv_drained _ _ HI (Hf Hfd)) as [-> ->]. by rewrite Hfd.
Qed.

(** X16: the shutdown is bounded: every internal event takes [pending]
    down by exactly one; [pending] is never above 2n+1 for n hooks
    registered before the first [Close], and is 0 when [done] is closed;
    with no hook registered the one internal event is the end of the
    loop. *)
Theorem shutdown_takes_2n_plus_1 tr c tr' c' :
  run tr New = Some c →
  Forall (λ ev, internal ev = true) tr' →
  run tr' c = Some c' →
  length tr' + pending c' = pending c
  ∧ pending c ≤ 2 * length (registered tr) + 1
  ∧ (done c' = true → pending c' = 0)
  ∧ (registered tr = [] → once c = Running → tr' = [] ∨ tr' = [Complete]).
Proof.
  intros Hrun Htr' Hrun'.
  pose proof (run_pending_exact _ _ _ Htr' Hrun') as Hex.
  destruct (FreshInv_run _ _ _ FreshInv_New Hrun) as [[HF _]|HI]; simpl in *.
  - assert (Hp : pending c = 0).
    { unfold pending. rewrite (fresh_goroutines _ HF), (fresh_errs _ HF),
        (fresh_once _ HF). done. }
    split_and!; [done|lia| |].
    + intros _. lia.
    + rewrite (fresh_once _ HF). done.
  - pose proof (RunInv_pending _ _ HI) as [Hle _].
    pose proof (RunInv_pending _ _ (RunInv_run _ _ _ _ HI Hrun')) as [_ Hz].
    split_and!; [done..|].
    intros Hno Hon. rewrite Hno in Hle. simpl in Hle.
    destruct tr' as [|ev [|ev' tr']]; [by left| |simpl in Hex; lia].
    right. simpl in Hrun'. destruct (step ev c) as [c1|] eqn:H1; [|done].
    pose proof HI as [_ Hr Hc Hi _ _ _ _ _]. rewrite Hno in Hr, Hc.
    apply Permutation_length in Hr. rewrite length_app in Hr. simpl in *.
    destruct ev as [f| |k| |]; try (by inversion Htr'; subst).
    + simpl in H1. destruct (goroutines c); [done|simpl in Hr; lia].
    + simpl in H1. rewrite Hon in H1. destruct (errs c); [done|].
      rewrite bool_decide_eq_false_2 in H1 by lia. done.
Qed.

Lemma same_shutdown_step ev c1 c2 c1' :
  once c1 ≠ Fresh → same_shutdown c1 c2 → step ev c1 = Some c1' →
  ∃ c2', step ev c2 = Some c2' ∧ same_shutdown c1' c2' ∧ once c1' ≠ Fresh.
Proof.
  intros Ho (H1 & H2 & H3 & H4 & H5 & H6 & H7 & H8).
  destruct ev as [f| |k| |]; simpl.
  - intros [= <-]. eexists. split; [done|]. unfold same_shutdown. simpl. repeat split; first [done|congruence].
  - rewrite <-H1. destruct (once c1) eqn:Hon; [done|..]; intros [= <-];
      (eexists; split; [done|]); unfold same_shutdown; simpl;
      repeat split; first [done|congruence].
  - rewrite <-H3, <-H4, <-H5. destruct (goroutines c1 !! k); [|done].
    case_bool_decide; [|done]. intros [= <-]. eexists. split; [done|].
    unfold same_shutdown. simpl. repeat split; first [done|congruence].
  - rewrite <-H1, <-H4, <-H5, <-H6. destruct (once c1) eqn:Hon; try done.
    destruct (errs c1); [done|]. case_bool_decide; [|done]. intros [= <-].
    eexists. split; [done|]. unfold same_shutdown. simpl. repeat split;
      try first [done|congruence]. by rewrite H7.
  - rewrite <-H1, <-H5, <-H6. destruct (once c1) eqn:Hon; try done.
    case_bool_decide; [done|]. intros [= <-].
    eexists. split; [done|]. unfold same_shutdown. simpl. repeat split; first [done|congruence].
Qed.

Lemma same_shutdown_run tr c1 c2 c1' :
  once c1 ≠ Fresh → same_shutdown c1 c2 → run tr c1 = Some c1' →
  ∃ c2', run tr c2 = Some c2' ∧ same_shutdown c1' c2'.
Proof.
  revert c1 c2. induction tr as [|ev tr IH]; intros c1 c2 Ho Hs; simpl.
  - intros [= <-]. by exists c2.
  - destruct (step ev c1) as [c1''|] eqn:H1; [|done].
    destruct (same_shutdown_step _ _ _ _ Ho Hs H1) as (c2'' & -> & Hs' & Ho').
    by apply IH.
Qed.

(** X17: a hook added after the first [Close] is ignored: the shutdown
    runs as it does without it, with the same hooks run, the same log and
    the same completion. *)
Theorem Add_after_Close_is_ignored c f tr c' :
  once c ≠ Fresh →
  run tr c = Some c' →
  ∃ c'', run (Add f :: tr) c = Some c''
         ∧ ran c'' = ran c' ∧ goroutines c'' = goroutines c'
         ∧ log c'' = log c' ∧ done c'' = done c' ∧ once c'' = once c'.
Proof.
  intros Ho Hrun. simpl.
  destruct (same_shutdown_run tr c
              {| once := once c; done := done c; funcs := funcs c ++ f;
                 goroutines := goroutines c; errs := errs c;
                 cap_errs := cap_errs c; i := i c; log := log c;
                 ran := ran c |} c' Ho) as (c'' & Hrun'' & Hs); [|done|].
  { by repeat split. }
  destruct Hs as (H1 & H2 & H3 & H4 & H5 & H6 & H7 & H8).
  exists c''. split_and!; congruence.
Qed.

(** X18: the closer of [Run].  With the draining hook registered before
    the first [Close], when [Wait] returns the hook has run, once, and
    the log has the line [closer: http: shutting down: ...] exactly if
    [srv.Shutdown] failed; when [Close] came first (the server failed at
    once) [Wait] returns with nothing run and nothing logged. *)
Theorem Run_logs_failed_Shutdown tr c (shutdown : option error) :
  run tr New = Some c →
  Wait c = Some () →
  (registered tr = [graceful shutdown] →
     ran c = [graceful shutdown]
     ∧ log c = match shutdown with
               | Some e => ["closer: http: shutting down: " +:+ Error e]
               | None => []
               end)
  ∧ (registered tr = [] → ran c = [] ∧ log c = []).
Proof.
  intros Hrun Hw. unfold Wait in Hw. destruct (done c) eqn:Hd; [|done].
  destruct (FreshInv_run _ _ _ FreshInv_New Hrun) as [[HF _]|HI]; simpl in *.
  { rewrite (fresh_done _ HF) in Hd. done. }
  pose proof Hd as Hfd. rewrite (run_done _ _ HI) in Hfd.
  apply bool_decide_eq_true in Hfd.
  pose proof (run_fired _ _ HI Hfd) as Hcap.
  destruct (RunInv_drained _ _ HI Hcap) as [Hg He].
  pose proof (run_ran _ _ HI) as Hr. rewrite Hg, app_nil_r in Hr.
  assert (Hlog : log c = log_line <$> omap returns (ran c)).
  { rewrite (run_log _ _ HI). rewrite take_ge; [done|].
    pose proof (run_i _ _ HI) as Hi. rewrite He in Hi. simpl in Hi. lia. }
  split.
  - intros Hreg. rewrite Hreg in Hr. apply Permutation_singleton_r in Hr.
    rewrite Hlog, Hr. split; [done|]. by destruct shutdown.
  - intros Hreg. rewrite Hreg in Hr. apply Permutation_nil_r in Hr.
    rewrite Hlog, Hr. done.
Qed.

(** ** The facts on concrete runs *)

Lemma Wait_blocks_until_shutdown_is_over_witness :
  run [Add [hook1]; Add [hook2]] New
  = Some (Closer.end_of [Add [hook1]; Add [hook2]] New)
  ∧ Wait (Closer.end_of [Add [hook1]; Add [hook2]] New) = None
  ∧ funcs (Closer.end_of [Add [hook1]; Add [hook2]] New) = [hook1; hook2].
Proof.
  assert (Hrun : run [Add [hook1]; Add [hook2]] New
                 = Some (Closer.end_of [Add [hook1]; Add [hook2]] New))
    by reflexivity.
  assert (Hno : Forall (λ ev, is_Close ev = false) [Add [hook1]; Add [hook2]])
    by by repeat constructor.
  pose proof (proj2 (Wait_blocks_until_shutdown_is_over _ _ Hrun) Hno)
    as (H1 & _ & H3 & _).
  split_and!; [exact Hrun|exact H1|exact H3].
Defined.

Lemma shutdown_takes_2n_plus_1_witness :
  run half_shutdown New = Some end_half_shutdown
  ∧ run rest_of_shutdown end_half_shutdown = Some end_rest_of_shutdown
  ∧ done end_rest_of_shutdown = true
  ∧ length rest_of_shutdown + pending end_rest_of_shutdown
    = pending end_half_shutdown
  ∧ pending end_half_shutdown ≤ 2 * length (registered half_shutdown) + 1.
Proof.
  assert (H1 : run half_shutdown New = Some end_half_shutdown) by reflexivity.
  assert (H2 : run rest_of_shutdown end_half_shutdown
               = Some end_rest_of_shutdown) by reflexivity.
  assert (Hint : Forall (λ ev, internal ev = true) rest_of_shutdown)
    by by repeat constructor.
  pose proof (shutdown_takes_2n_plus_1 _ _ _ _ H1 Hint H2) as (Ha & Hb & _).
  split_and!; [exact H1|exact H2|reflexivity|exact Ha|exact Hb].
Defined.

Lemma Add_after_Close_is_ignored_witness :
  run rest_of_shutdown end_half_shutdown = Some end_rest_of_shutdown
  ∧ ∃ c'', run (Add [hook3] :: rest_of_shutdown) end_half_shutdown = Some c''
           ∧ ran c'' = [hook2; hook1] ∧ funcs c'' = [hook3].
Proof.
  assert (H2 : run rest_of_shutdown end_half_shutdown
               = Some end_rest_of_shutdown) by reflexivity.
  split; [exact H2|].
  destruct (Add_after_Close_is_ignored end_half_shutdown [hook3]
              rest_of_shutdown end_rest_of_shutdown) as (c'' & Hrun & Hr & _);
    [discriminate|exact H2|].
  exists c''. split; [exact Hrun|]. split; [exact Hr|].
  vm_compute in Hrun. by inversion Hrun.
Defined.

Lemma Run_logs_failed_Shutdown_witness :
  run signalled New = Some end_signalled
  ∧ Wait end_signalled = Some ()
  ∧ registered signalled = [graceful (Some deadline)]
  ∧ log end_signalled
    = ["closer: http: shutting down: context deadline exceeded"].
Proof.
  assert (Hrun : run signalled New = Some end_signalled) by reflexivity.
  split_and!; [exact Hrun|reflexivity..|].
  exact (proj2 (proj1 (Run_logs_failed_Shutdown signalled end_signalled
                         (Some deadline) Hrun eq_refl) eq_refl)).
Defined.

End LifecycleFacts.

(* ===================================================================== *)
(** * Properties of the handler *)
(* ===================================================================== *)

Module HandlerFacts.
Import Crawler Handler CrawlerFacts.

Lemma fill_from (filled : list urlsResult) (rest : list Result) :
  foldl (λ response ir, <[ir.1 := convert ir.2]> response)
        (filled ++ replicate (length rest) zero)
        (imap (λ i res, (length filled + i, res)) rest)
  = filled ++ (convert <$> rest).
Proof.
  revert filled. induction rest as [|x rest IH]; intros filled; [done|].
  simpl. rewrite Nat.add_0_r.
  rewrite (insert_app_r_alt _ _ (length filled)) by lia.
  rewrite Nat.sub_diag. simpl.
  specialize (IH (filled ++ [convert x])).
  rewrite length_app, <-!(assoc_L (++)) in IH. simpl in IH.
  etrans; [|exact IH]. f_equal. apply imap_ext. intros i y _. simpl.
  f_equal. lia.
Qed.

Lemma fill_convert results : fill results = convert <$> results.
Proof. exact (fill_from [] results). Qed.

Section WithDeps.
Context (quote : string → string).
Context (decode : string → list string + decodeError).
Context (crawl : list string → option (list Result) * option error).

Lemma handler_admitted r urls :
  admits decode r urls →
  handler quote decode crawl r
  = match crawl urls with
    | (_, Some err) => writeResponse (inl err) StatusInternalServerError
    | (results, None) =>
        writeResponse (inr (fill (default [] results))) StatusOK
    end.
Proof.
  intros (Hm & Hc & Hl & Hd & Hlo & Hhi). unfold handler.
  rewrite bool_decide_eq_false_2 by (by intros ?).
  rewrite bool_decide_eq_false_2 by (by intros ?).
  rewrite bool_decide_eq_false_2 by done. rewrite Hd.
  rewrite bool_decide_eq_false_2 by lia.
  rewrite bool_decide_eq_false_2 by lia. done.
Qed.

Lemma handler_rejected r :
  (∀ urls, ¬ admits decode r urls) →
  (status (handler quote decode crawl r) = StatusMethodNotAllowed
   ∧ Method r ≠ MethodPost
   ∨ status (handler quote decode crawl r) = StatusUnsupportedMediaType
     ∧ Method r = MethodPost ∧ ContentType r ≠ contentTypeJSON
   ∨ status (handler quote decode crawl r) = StatusBadRequest
     ∧ Method r = MethodPost ∧ ContentType r = contentTypeJSON)
  ∧ ∀ crawl', handler quote decode crawl' r = handler quote decode crawl r.
Proof.
  intros Hno. unfold handler.
  case_bool_decide as Hm; [split; [by left|done]|].
  case_bool_decide as Hc; [split; [by right; left|done]|].
  case_bool_decide as Hl; [split; [by right; right|done]|].
  destruct (decode (Body r)) as [urls|[v t|e]] eqn:Hd;
    [|split; [by right; right|done]..].
  case_bool_decide as H0; [split; [by right; right|done]|].
  case_bool_decide as H20; [split; [by right; right|done]|].
  exfalso. apply (Hno urls). unfold admits. split_and!; [done..|lia|lia].
Qed.

Lemma admits_dec r :
  (∃ urls, admits decode r urls) ∨ (∀ urls, ¬ admits decode r urls).
Proof.
  unfold admits. destruct (decode (Body r)) as [urls|e] eqn:Hd.
  - destruct (decide (Method r = MethodPost ∧ ContentType r = contentTypeJSON
                      ∧ ContentLength r ≠ 0%Z
                      ∧ 1 ≤ length urls ≤ maxURLsNumber)) as [H|H].
    + left. exists urls. tauto.
    + right. intros urls' (? & ? & ? & [= <-] & ?). tauto.
  - right. by intros urls' (_ & _ & _ & ? & _).
Qed.

Lemma admits_unique r urls urls' :
  admits decode r urls → admits decode r urls' → urls = urls'.
Proof. intros (_ & _ & _ & H1 & _) (_ & _ & _ & H2 & _). congruence. Qed.

(** X19: the status the handler answers with.  405 exactly for a method
    other than POST; 415 exactly for POST with another content type; 400
    exactly for the POST and JSON requests that do not reach the crawler
    (empty body, undecodable body, no URL, more than 20 URLs); 500
    exactly when the crawler is reached and returns an error; 200 exactly
    when it is reached and returns none.  A request that does not reach
    the crawler is answered without consulting it. *)
Theorem handler_status r :
  let rep := handler quote decode crawl r in
  (status rep = StatusMethodNotAllowed ↔ Method r ≠ MethodPost)
  ∧ (status rep = StatusUnsupportedMediaType ↔
       Method r = MethodPost ∧ ContentType r ≠ contentTypeJSON)
  ∧ (status rep = StatusBadRequest ↔
       Method r = MethodPost ∧ ContentType r = contentTypeJSON
       ∧ ∀ urls, ¬ admits decode r urls)
  ∧ (status rep = StatusInternalServerError ↔
       ∃ urls, admits decode r urls ∧ is_Some (crawl urls).2)
  ∧ (status rep = StatusOK ↔
       ∃ urls, admits decode r urls ∧ (crawl urls).2 = None)
  ∧ ((∀ urls, ¬ admits decode r urls) →
       ∀ crawl', handler quote decode crawl' r = rep).
Proof.
  intros rep. destruct (admits_dec r) as [(urls & Ha)|Hno].
  - assert (Hrep : rep = match crawl urls with
      | (_, Some err) => writeResponse (inl err) StatusInternalServerError
      | (results, None) =>
          writeResponse (inr (fill (default [] results))) StatusOK
      end) by by apply handler_admitted.
    pose proof Ha as (Hm & Hc & _).
    assert (Hsome : ∀ urls', admits decode r urls' → urls' = urls)
      by (intros; by eapply admits_unique).
    clearbody rep.
    destruct (crawl urls) as [res [e|]] eqn:Hcr; subst rep; simpl.
    + split_and!.
      * split; [discriminate|done].
      * split; [discriminate|tauto].
      * split; [discriminate|]. intros (_ & _ & Hn). destruct (Hn urls Ha).
      * split; [|done]. intros _. exists urls. rewrite Hcr. split; [done|].
        by eexists.
      * split; [discriminate|]. intros (urls' & Ha' & Hn).
        rewrite (Hsome _ Ha'), Hcr in Hn. done.
      * intros Hn. destruct (Hn urls Ha).
    + split_and!.
      * split; [discriminate|done].
      * split; [discriminate|tauto].
      * split; [discriminate|]. intros (_ & _ & Hn). destruct (Hn urls Ha).
      * split; [discriminate|]. intros (urls' & Ha' & [e He]).
        rewrite (Hsome _ Ha'), Hcr in He. done.
      * split; [|done]. intros _. exists urls. by rewrite Hcr.
      * intros Hn. destruct (Hn urls Ha).
  - destruct (handler_rejected r Hno) as [Hst Hind].
    fold rep in Hst, Hind. clearbody rep.
    assert (Hnone : ∀ P : list string → Prop,
              ¬ ∃ urls, admits decode r urls ∧ P urls).
    { intros P (urls & Ha & _). destruct (Hno urls Ha). }
    destruct Hst as [[Hs Hm]|[(Hs & Hm & Hc)|(Hs & Hm & Hc)]]; rewrite Hs;
      split_and!; try (intros _; exact Hind);
      (split; [first [done|discriminate|tauto
                      |by intros _; exfalso; tauto]
              |first [done|tauto|intros H; destruct (Hnone _ H)]]).
Qed.

(** X20: for a request that reaches the crawler, the handler writes the
    text of the crawler's error with status 500, or else, with status
    200, one entry per result, in the order of the results, with the URL,
    status code and body of each. *)
Theorem handler_relays_crawl r urls :
  admits decode r urls →
  handler quote decode crawl r
  = match crawl urls with
    | (_, Some err) =>
        {| status := StatusInternalServerError; header := contentTypeJSON;
           written := Text (Error err) |}
    | (results, None) =>
        {| status := StatusOK; header := contentTypeJSON;
           written := JSON (convert <$> default [] results) |}
    end.
Proof.
  intros Ha. rewrite (handler_admitted r urls Ha).
  destruct (crawl urls) as [res [e|]]; [done|]. by rewrite fill_convert.
Qed.

(** X21: a request that reaches the crawler with a list holding a URL the
    validation loop rejects is answered 500 with the text [invalid url:
    ...] naming the first such URL. *)
Theorem invalid_url_is_answered_500 L cfg r urls sched s :
  admits decode r urls →
  (∃ u, u ∈ urls ∧ url_ok L u = false) →
  run L sched (Crawl L cfg None urls) = Some s →
  returned s = Some (crawl urls) →
  ∃ pre u0 post,
    urls = pre ++ u0 :: post
    ∧ Forall (λ u, url_ok L u = true) pre
    ∧ url_ok L u0 = false
    ∧ handler quote decode crawl r
      = {| status := StatusInternalServerError; header := contentTypeJSON;
           written := Text ("invalid url: " +:+ Quote L u0) |}.
Proof.
  intros Ha Hbad Hrun Hret.
  destruct (enqueue_invalid L urls Hbad)
    as (pre & u0 & post & Heq & Hpre & Hu0 & He).
  assert (Hc : Crawl L cfg None urls
    = giveBack None (Some (Err ("invalid url: " +:+ Quote L u0))) None).
  { unfold Crawl. destruct urls as [|u urls]; [by destruct pre|].
    destruct (enqueue L (u :: urls)) as [q e]. simpl in He. by subst. }
  rewrite Hc in Hrun. apply run_returned in Hrun; [|by eexists]. subst s.
  simpl in Hret. inversion Hret as [Hcr].
  exists pre, u0, post. split_and!; [done..|].
  rewrite (handler_admitted r _ Ha), <-Hcr. done.
Qed.

End WithDeps.

(** ** The facts on concrete requests *)

Lemma handler_relays_crawl_witness :
  admits decode0 (post "http://a http://b") ["http://a"; "http://b"]
  ∧ handler (Quote lib0) decode0 crawl_ok (post "http://a http://b")
    = {| status := 200; header := "application/json";
         written := JSON [{| url := "http://a"; code := 200; body := "{}" |};
                          {| url := "http://b"; code := 200; body := "{}" |}]
      |}.
Proof.
  assert (Ha : admits decode0 (post "http://a http://b")
                 ["http://a"; "http://b"]).
  { unfold admits, maxURLsNumber. simpl. split_and!; [done..|lia|lia]. }
  split; [exact Ha|].
  exact (handler_relays_crawl (Quote lib0) decode0 crawl_ok _ _ Ha).
Defined.

Lemma invalid_url_is_answered_500_witness :
  admits decode0 (post "http://a some") ["http://a"; "some"]
  ∧ ∃ pre u0 post0,
      ["http://a"; "some"] = pre ++ u0 :: post0
      ∧ Forall (λ u, url_ok lib0 u = true) pre
      ∧ url_ok lib0 u0 = false
      ∧ handler (Quote lib0) decode0 crawl_rejecting (post "http://a some")
        = {| status := 500; header := "application/json";
             written := Text ("invalid url: " +:+ Quote lib0 u0) |}.
Proof.
  assert (Ha : admits decode0 (post "http://a some") ["http://a"; "some"]).
  { unfold admits, maxURLsNumber. simpl. split_and!; [done..|lia|lia]. }
  split; [exact Ha|].
  refine (invalid_url_is_answered_500 (Quote lib0) decode0 crawl_rejecting
            lib0 defaultConfig _ _ [] _ Ha _ eq_refl eq_refl).
  exists "some". split; [|reflexivity].
  apply list_elem_of_lookup. by exists 1.
Defined.

End HandlerFacts.
